(** * canvas-writer: a shallow embedding of [src/index.js]

    The class [CanvasWriter] lays text out on a node-canvas surface.  The
    development follows the file top-down: the JavaScript primitives the
    class relies on ([String.prototype.slice], [split], [join], the [||]
    defaulting idiom), the drawing surface seen as a history of calls, the
    methods of the class, and then the properties of the specification.

    Lengths are JavaScript numbers in the source; they are integers ([Z])
    here, which keeps addition and comparison exact.  The two recursive
    closures take a bound on the depth of their recursion and return
    [None] when it is exhausted; the lemmas below say when a bound is
    enough and when none is. *)

From Stdlib Require Import ZArith List String Ascii Bool Lia.
From stdpp Require Import strings gmap.
Import ListNotations.

Local Open Scope string_scope.
Local Open Scope list_scope.
Local Open Scope Z_scope.

(** ** JavaScript primitives *)

Module JS.

(** Relative index of [slice]: a negative index counts from the end, and
    the result is clamped to [0 .. len]. *)
Definition relIndex (len i : Z) : Z :=
  if i <? 0 then Z.max (len + i) 0 else Z.min i len.

Fixpoint str_take (n : nat) (s : string) : string :=
  match n, s with
  | S n', String c s' => String c (str_take n' s')
  | _, _ => EmptyString
  end.

Fixpoint str_drop (n : nat) (s : string) : string :=
  match n, s with
  | S n', String _ s' => str_drop n' s'
  | _, _ => s
  end.

(** [s.slice(start, stop)]; [stop = None] is the one-argument call. *)
Definition slice (s : string) (start : Z) (stop : option Z) : string :=
  let len := Z.of_nat (String.length s) in
  let from := relIndex len start in
  let to := match stop with Some e => relIndex len e | None => len end in
  str_take (Z.to_nat (to - from)) (str_drop (Z.to_nat from) s).

(** [a.slice(start, stop)] on arrays. *)
Definition arr_slice {A : Type} (a : list A) (start : Z) (stop : option Z) : list A :=
  let len := Z.of_nat (List.length a) in
  let from := relIndex len start in
  let to := match stop with Some e => relIndex len e | None => len end in
  firstn (Z.to_nat (to - from)) (skipn (Z.to_nat from) a).

(** [s.split(sep)] for a one-character separator: never the empty array,
    [''.split(' ')] is [['']]. *)
Fixpoint split (sep : ascii) (s : string) : list string :=
  match s with
  | EmptyString => [EmptyString]
  | String c s' =>
      if Ascii.eqb c sep then EmptyString :: split sep s'
      else match split sep s' with
           | w :: ws => String c w :: ws
           | [] => [String c EmptyString]
           end
  end.

(** [a.join(sep)]. *)
Definition join (sep : string) (a : list string) : string := String.concat sep a.

(** [a.pop()] leaves [removelast a] and returns the last element. *)
Definition pop (a : list string) : string * list string :=
  (List.last a EmptyString, List.removelast a).

(** Truthiness of an optional number and of an optional string. *)
Definition truthy_num (v : option Z) : bool :=
  match v with Some n => negb (n =? 0) | None => false end.

Definition truthy_str (v : option string) : bool :=
  match v with Some s => negb (String.eqb s "") | None => false end.

(** [v || d]. *)
Definition or_num (v : option Z) (d : Z) : Z :=
  match v with Some n => if n =? 0 then d else n | None => d end.

Definition or_str (v : option string) (d : string) : string :=
  match v with Some s => if String.eqb s "" then d else s | None => d end.

End JS.

Definition sp : ascii := " "%char.
Definition nl : ascii := Ascii.ascii_of_nat 10.

(** ** Hard character wrap: the closure [reduceToFit] of [writeWrapped] *)

Module Wrapped.
Section Split.
(** [measureWidth s] is [this.ctx.measureText(s).width] under the font set
    at the top of [writeWrapped]. *)
Variable measureWidth : string -> Z.
Variable maxWidth : Z.

(** The [while] loop: drop the last character while the section is too
    wide and longer than one character.  [n] bounds the iterations. *)
Fixpoint shrink (n : nat) (section : string) (j : Z) : option (string * Z) :=
  if (maxWidth <? measureWidth section) && (1 <? Z.of_nat (String.length section)) then
    match n with
    | O => None
    | S n' => shrink n' (JS.slice section 0 (Some (-1))) (j + 1)
    end
  else Some (section, j).

(** [reduceToFit(text)], pushing onto [results]; [fuel] bounds the depth
    of the recursion, [None] is a recursion that has not returned. *)
Fixpoint reduceToFit (fuel : nat) (text : string) (results : list string)
  : option (list string) :=
  match fuel with
  | O => None
  | S fuel' =>
      if maxWidth <? measureWidth text then
        match shrink (String.length text) text 1 with
        | Some (section, j) =>
            reduceToFit fuel' (JS.slice text (- j + 1) None) (results ++ [section])
        | None => None
        end
      else Some (results ++ [text])
  end.

Definition lines (fuel : nat) (text : string) : option (list string) :=
  reduceToFit fuel text [].
End Split.
End Wrapped.

(** ** Word wrap: the closures [reduceToFit] and [splitToFit] of
    [writeWordWrapped] *)

Module WordWrapped.
Section Split.
Variable measureWidth : string -> Z.
Variable maxWidth : Z.

Fixpoint shrink (n : nat) (section : string) (j : Z) : option (string * Z) :=
  if (maxWidth <? measureWidth section) && (1 <? Z.of_nat (String.length section)) then
    match n with
    | O => None
    | S n' => shrink n' (JS.slice section 0 (Some (-1))) (j + 1)
    end
  else Some (section, j).

(** [reduceToFit(text)]: one prefix is pushed and the rest returned; a
    text that fits is returned whole and nothing is pushed. *)
Definition reduceToFit (text : string) (results : list string)
  : option (string * list string) :=
  if maxWidth <? measureWidth text then
    match shrink (String.length text) text 1 with
    | Some (section, j) => Some (JS.slice text (- j + 1) None, results ++ [section])
    | None => None
    end
  else Some (text, results).

(** How the [while] loop of [splitToFit] is left. *)
Inductive Exit : Type :=
| SingleWord (section remainder : list string)   (* the [return] inside the loop *)
| LoopEnd (section remainder : list string).     (* the loop condition failed *)

Fixpoint popWords (n : nat) (section remainder : list string) : option Exit :=
  if (maxWidth <? measureWidth (JS.join " " section))
     && (1 <? Z.of_nat (String.length (JS.join " " section))) then
    if (List.length section =? 1)%nat then Some (SingleWord section remainder)
    else match n with
         | O => None
         | S n' =>
             let (w, section') := JS.pop section in
             popWords n' section' (w :: remainder)
         end
  else Some (LoopEnd section remainder).

Fixpoint splitToFit (fuel : nat) (text : string) (results : list string)
  : option (list string) :=
  match fuel with
  | O => None
  | S fuel' =>
      if String.eqb text "" then Some results
      else
        let words := JS.split sp text in
        let width := measureWidth (JS.join " " words) in
        if maxWidth <? width then
          match popWords (List.length words) words [] with
          | Some (SingleWord section remainder) =>
              match reduceToFit (JS.join " " section) results with
              | Some (extra, results') =>
                  splitToFit fuel' (extra +:+ " " +:+ JS.join " " remainder) results'
              | None => None
              end
          | Some (LoopEnd section remainder) =>
              splitToFit fuel' (JS.join " " remainder) (results ++ [JS.join " " section])
          | None => None
          end
        else Some (results ++ [text])
  end.

Definition lines (fuel : nat) (text : string) : option (list string) :=
  splitToFit fuel text [].
End Split.
End WordWrapped.

(** ** The drawing surface

    The canvas and its 2D context belong to node-canvas.  The writer only
    assigns context attributes, calls context methods and reads three things
    back: text metrics, [textAlign] and [lineWidth].  A context is therefore
    the chronological list of the calls made on it, and what the surface
    answers is a function of that history. *)

Inductive Call : Type :=
| Save
| Restore
| SetFont (v : string)
| SetFillStyle (v : string)
| SetTextAlign (v : string)
| SetShadowColor (v : option string)
| SetShadowOffsetX (v : Z)
| SetShadowOffsetY (v : Z)
| SetShadowBlur (v : Z)
| SetStrokeStyle (v : option string)
| SetLineWidth (v : option Z)
| SetLineJoin (v : option string)
| FillRect (x y w h : Z)
| DrawImage (src : string) (x y w h : Z)
| StrokeText (text : string) (x y : Z)
| FillText (text : string) (x y : Z).

Definition Context2D : Type := list Call.

Record TextMetrics : Type := {
  width : Z;
  actualBoundingBoxLeft : Z;
  actualBoundingBoxAscent : Z;
  emHeightDescent : Z
}.

Class Surface : Type := {
  measureText : Context2D -> string -> TextMetrics;
  textAlign : Context2D -> string;
  lineWidth : Context2D -> Z
}.

(** The calls that put ink on the surface. *)
Definition isDraw (c : Call) : bool :=
  match c with
  | FillRect _ _ _ _ | DrawImage _ _ _ _ _ | StrokeText _ _ _ | FillText _ _ _ => true
  | _ => false
  end.

Definition isTextDraw (c : Call) : bool :=
  match c with
  | StrokeText _ _ _ | FillText _ _ _ => true
  | _ => false
  end.

(** ** Options and line records *)

Record WriteOptions : Type := {
  o_x : option Z;
  o_y : option Z;
  o_spacing : option Z;
  o_font : option string;
  o_style : option string;
  o_align : option string;
  o_maxLines : option Z;
  o_shadowColor : option string;
  o_shadowX : option Z;
  o_shadowY : option Z;
  o_shadowBlur : option Z
}.

Record StrokeOptions : Type := {
  s_style : option string;
  s_width : option Z;
  s_join : option string
}.

(** The default [{}] of both parameters. *)
Definition noOptions : WriteOptions :=
  {| o_x := None; o_y := None; o_spacing := None; o_font := None; o_style := None;
     o_align := None; o_maxLines := None; o_shadowColor := None; o_shadowX := None;
     o_shadowY := None; o_shadowBlur := None |}.

Definition noStroke : StrokeOptions :=
  {| s_style := None; s_width := None; s_join := None |}.

(** One element of [this.texts]. *)
Record LineRecord : Type := {
  text : string;
  xSpace : Z;
  ySpace : Z;
  options : WriteOptions;
  strokeOptions : StrokeOptions
}.

Record Canvas : Type := {
  canvasWidth : Z;
  canvasHeight : Z;
  ctx : Context2D
}.

Record CanvasWriter : Type := {
  canvas : Canvas;
  line : Z;
  texts : list LineRecord
}.

(** A string, or an array of strings: the [lines] parameter. *)
Inductive Lines : Type :=
| OfString (s : string)
| OfArray (a : list string).

(** ** The methods of [CanvasWriter] *)

Section Methods.
Context {surface : Surface}.

(** A call on [this.ctx]. *)
Definition call (c : Call) (this : CanvasWriter) : CanvasWriter :=
  {| canvas := {| canvasWidth := canvasWidth (canvas this);
                  canvasHeight := canvasHeight (canvas this);
                  ctx := ctx (canvas this) ++ [c] |};
     line := line this;
     texts := texts this |}.

Definition push (r : LineRecord) (this : CanvasWriter) : CanvasWriter :=
  {| canvas := canvas this; line := line this; texts := texts this ++ [r] |}.

Definition advance (d : Z) (this : CanvasWriter) : CanvasWriter :=
  {| canvas := canvas this; line := line this + d; texts := texts this |}.

(** [new CanvasWriter(canvas)]. *)
Definition new (c : Canvas) : CanvasWriter :=
  call Save {| canvas := c; line := 0; texts := [] |}.

Definition lastWrite (this : CanvasWriter) : option LineRecord :=
  List.head (JS.arr_slice (texts this) (-1) None).

Definition lineCount (this : CanvasWriter) : Z :=
  Z.of_nat (List.length (texts this)).

Definition drawBackground (style : string) (this : CanvasWriter) : CanvasWriter :=
  let this := call Save this in
  let this := call (SetFillStyle style) this in
  let this := call (FillRect 0 0 (canvasWidth (canvas this)) (canvasHeight (canvas this))) this in
  call Restore this.

Definition drawBackgroundImage (buffer : string) (this : CanvasWriter) : CanvasWriter :=
  call (DrawImage buffer 0 0 (canvasWidth (canvas this)) (canvasHeight (canvas this))) this.

(** The test [strokeOptions.style || strokeOptions.width || strokeOptions.join]. *)
Definition strokeActive (strokeOptions : StrokeOptions) : bool :=
  JS.truthy_str (s_style strokeOptions)
  || JS.truthy_num (s_width strokeOptions)
  || JS.truthy_str (s_join strokeOptions).

(** The test [this.lineCount >= maxLines && maxLines > 0]. *)
Definition capped (options : WriteOptions) (this : CanvasWriter) : bool :=
  let maxLines := JS.or_num (o_maxLines options) 0 in
  (maxLines <=? lineCount this) && (0 <? maxLines).

(** The attribute assignments of [writeText], lines 81 to 92. *)
Definition configure (options : WriteOptions) (strokeOptions : StrokeOptions)
                     (this : CanvasWriter) : CanvasWriter :=
  let this := call (SetFont (JS.or_str (o_font options) "16px serif")) this in
  let this := call (SetFillStyle (JS.or_str (o_style options) "white")) this in
  let this := call (SetTextAlign (JS.or_str (o_align options) "start")) this in
  let this := call (SetShadowColor (o_shadowColor options)) this in
  let this := call (SetShadowOffsetX (JS.or_num (o_shadowX options) 0)) this in
  let this := call (SetShadowOffsetY (JS.or_num (o_shadowY options) 0)) this in
  let this := call (SetShadowBlur (JS.or_num (o_shadowBlur options) 0)) this in
  let this := call (SetStrokeStyle (s_style strokeOptions)) this in
  let this := call (SetLineWidth (s_width strokeOptions)) this in
  call (SetLineJoin (s_join strokeOptions)) this.

Definition writeText (text : string) (options : WriteOptions)
                     (strokeOptions : StrokeOptions) (this : CanvasWriter)
  : CanvasWriter :=
  let this := call Save this in
  if capped options this then this
  else
    let offsetX := JS.or_num (o_x options) 5 in
    let offsetY := JS.or_num (o_y options) 5 in
    let spacing := JS.or_num (o_spacing options) 0 in
    let spacing := if line this =? 0 then 0 else spacing in
    let this := configure options strokeOptions this in
    let measure := measureText (ctx (canvas this)) text in
    if strokeActive strokeOptions then
      let xSpace :=
        (if String.eqb (textAlign (ctx (canvas this))) "center" then 0
         else actualBoundingBoxLeft measure + lineWidth (ctx (canvas this))) + offsetX in
      let ySpace :=
        line this + actualBoundingBoxAscent measure + lineWidth (ctx (canvas this))
        + spacing + offsetY in
      let this :=
        push {| text := text; xSpace := xSpace; ySpace := ySpace;
                options := options; strokeOptions := strokeOptions |} this in
      let this := call (StrokeText text xSpace ySpace) this in
      let this := call (FillText text xSpace ySpace) this in
      advance (actualBoundingBoxAscent measure + emHeightDescent measure
               + lineWidth (ctx (canvas this)) + spacing) this
    else
      let xSpace :=
        (if String.eqb (textAlign (ctx (canvas this))) "center" then 0
         else actualBoundingBoxLeft measure) + offsetX in
      let ySpace := line this + actualBoundingBoxAscent measure + spacing + offsetY in
      let this :=
        push {| text := text; xSpace := xSpace; ySpace := ySpace;
                options := options; strokeOptions := strokeOptions |} this in
      let this := call (FillText text xSpace ySpace) this in
      let this := advance (actualBoundingBoxAscent measure + emHeightDescent measure
                           + spacing) this in
      call Restore this.

(** [typeof texts === 'string' ? texts.split('\n') : texts]. *)
Definition toArray (lines : Lines) : list string :=
  match lines with
  | OfString s => JS.split nl s
  | OfArray a => a
  end.

Definition writeLines (lines : Lines) (options : WriteOptions)
                      (strokeOptions : StrokeOptions) (this : CanvasWriter)
  : CanvasWriter :=
  fold_left (fun this t => writeText t options strokeOptions this) (toArray lines) this.

(** [forEach] over a method that may not return. *)
Fixpoint forEach {A : Type} (f : A -> CanvasWriter -> option CanvasWriter)
                 (a : list A) (this : CanvasWriter) : option CanvasWriter :=
  match a with
  | [] => Some this
  | t :: a' =>
      match f t this with
      | Some this' => forEach f a' this'
      | None => None
      end
  end.

(** [maxWidth = this.canvas.width] when the argument is left out. *)
Definition widthOr (maxWidth : option Z) (this : CanvasWriter) : Z :=
  match maxWidth with
  | Some m => m
  | None => canvasWidth (canvas this)
  end.

Definition writeWrapped (fuel : nat) (text : string) (maxWidth : option Z)
                        (options : WriteOptions) (strokeOptions : StrokeOptions)
                        (this : CanvasWriter) : option CanvasWriter :=
  let maxWidth := widthOr maxWidth this in
  let this := call (SetFont (JS.or_str (o_font options) "16px serif")) this in
  let measureWidth := fun s => width (measureText (ctx (canvas this)) s) in
  match Wrapped.lines measureWidth maxWidth fuel text with
  | Some results => Some (writeLines (OfArray results) options strokeOptions this)
  | None => None
  end.

Definition writeWrappedLines (fuel : nat) (lines : Lines) (maxWidth : option Z)
                             (options : WriteOptions) (strokeOptions : StrokeOptions)
                             (this : CanvasWriter) : option CanvasWriter :=
  let maxWidth := widthOr maxWidth this in
  forEach (fun t this => writeWrapped fuel t (Some maxWidth) options strokeOptions this)
          (toArray lines) this.

Definition writeWordWrapped (fuel : nat) (text : string) (maxWidth : option Z)
                            (options : WriteOptions) (strokeOptions : StrokeOptions)
                            (this : CanvasWriter) : option CanvasWriter :=
  let maxWidth := widthOr maxWidth this in
  let this := call (SetFont (JS.or_str (o_font options) "16px serif")) this in
  let measureWidth := fun s => width (measureText (ctx (canvas this)) s) in
  match WordWrapped.lines measureWidth maxWidth fuel text with
  | Some results => Some (writeLines (OfArray results) options strokeOptions this)
  | None => None
  end.

Definition writeWordWrappedLines (fuel : nat) (lines : Lines) (maxWidth : option Z)
                                 (options : WriteOptions) (strokeOptions : StrokeOptions)
                                 (this : CanvasWriter) : option CanvasWriter :=
  let maxWidth := widthOr maxWidth this in
  forEach (fun t this => writeWordWrapped fuel t (Some maxWidth) options strokeOptions this)
          (toArray lines) this.

Definition write (fuel : nat) (lines : Lines) (maxWidth : option Z)
                 (options : WriteOptions) (strokeOptions : StrokeOptions)
                 (this : CanvasWriter) : option CanvasWriter :=
  let maxWidth := widthOr maxWidth this in
  writeWordWrappedLines fuel lines (Some maxWidth) options strokeOptions this.

Definition isFitting (this : CanvasWriter) : bool :=
  line this <? canvasHeight (canvas this).

(** [cloneFrom(CanvasWriter, limit)]; the first parameter is [source]
    here.  [slice] copies, so the replay reads the log as it was when the
    method was entered. *)
Definition cloneFrom (source : CanvasWriter) (limit : option Z) (this : CanvasWriter)
  : CanvasWriter :=
  let limit := match limit with
               | Some l => l
               | None => Z.of_nat (List.length (texts source))
               end in
  let toClone := JS.arr_slice (texts source) 0 (Some limit) in
  fold_left (fun this t => writeText (text t) (options t) (strokeOptions t) this)
            toClone this.

Definition toString (this : CanvasWriter) : string :=
  JS.join (String nl EmptyString) (List.map (fun t => text t) (texts this)).

(** *** Sequences of method calls *)

Inductive Op : Type :=
| DrawBackground (style : string)
| DrawBackgroundImage (buffer : string)
| WriteText (text : string) (o : WriteOptions) (s : StrokeOptions)
| WriteLines (lines : Lines) (o : WriteOptions) (s : StrokeOptions)
| WriteWrapped (text : string) (maxWidth : option Z) (o : WriteOptions) (s : StrokeOptions)
| WriteWrappedLines (lines : Lines) (maxWidth : option Z) (o : WriteOptions) (s : StrokeOptions)
| WriteWordWrapped (text : string) (maxWidth : option Z) (o : WriteOptions) (s : StrokeOptions)
| WriteWordWrappedLines (lines : Lines) (maxWidth : option Z) (o : WriteOptions) (s : StrokeOptions)
| Write (lines : Lines) (maxWidth : option Z) (o : WriteOptions) (s : StrokeOptions)
| CloneFrom (source : CanvasWriter) (limit : option Z)
| CloneSelf (limit : option Z).

Definition step (fuel : nat) (op : Op) (this : CanvasWriter) : option CanvasWriter :=
  match op with
  | DrawBackground style => Some (drawBackground style this)
  | DrawBackgroundImage buffer => Some (drawBackgroundImage buffer this)
  | WriteText t o s => Some (writeText t o s this)
  | WriteLines l o s => Some (writeLines l o s this)
  | WriteWrapped t m o s => writeWrapped fuel t m o s this
  | WriteWrappedLines l m o s => writeWrappedLines fuel l m o s this
  | WriteWordWrapped t m o s => writeWordWrapped fuel t m o s this
  | WriteWordWrappedLines l m o s => writeWordWrappedLines fuel l m o s this
  | Write l m o s => write fuel l m o s this
  | CloneFrom source limit => Some (cloneFrom source limit this)
  | CloneSelf limit => Some (cloneFrom this limit this)
  end.

Definition run (fuel : nat) (ops : list Op) (this : CanvasWriter) : option CanvasWriter :=
  forEach (step fuel) ops this.

End Methods.

(** ** Writers as objects

    Two variables may hold the same writer, and two writers may share one
    canvas.  Objects live in a heap, and a statement of a method reads or
    writes one field of one object.  [writeTextAt] and [cloneFromAt] are
    [writeText] and [cloneFrom] over the heap, statement by statement, each
    access with the object the source names: [this] or the parameter.
    [load] and [store] relate a heap cell to the writers of the sections
    above. *)

Record WriterObject : Type := {
  its_canvas : nat;
  its_line : Z;
  its_texts : list LineRecord
}.

Record Heap : Type := {
  canvases : gmap nat Canvas;
  writers : gmap nat WriterObject
}.

Definition load (h : Heap) (l : nat) : option CanvasWriter :=
  match writers h !! l with
  | Some o =>
      match canvases h !! its_canvas o with
      | Some c => Some {| canvas := c; line := its_line o; texts := its_texts o |}
      | None => None
      end
  | None => None
  end.

Definition store (l : nat) (w : CanvasWriter) (h : Heap) : Heap :=
  match writers h !! l with
  | Some o =>
      {| canvases := <[its_canvas o := canvas w]> (canvases h);
         writers := <[l := {| its_canvas := its_canvas o;
                              its_line := line w;
                              its_texts := texts w |}]> (writers h) |}
  | None => h
  end.

(** A computation on the heap; [None] when a reference dangles. *)
Definition Run (A : Type) : Type := Heap -> option (A * Heap).

Definition ret {A : Type} (a : A) : Run A := fun h => Some (a, h).

Definition bind {A B : Type} (m : Run A) (k : A -> Run B) : Run B :=
  fun h =>
    match m h with
    | Some (a, h') => k a h'
    | None => None
    end.

Declare Scope run_scope.
Delimit Scope run_scope with run.

Notation "x <- m ;; k" := (bind m (fun x => k))
  (at level 100, m at next level, k at level 200, right associativity) : run_scope.
Notation "m ;; k" := (bind m (fun _ => k))
  (at level 100, k at level 200, right associativity) : run_scope.

(** [o.line] *)
Definition getLine (o : nat) : Run Z :=
  fun h =>
    match writers h !! o with
    | Some obj => Some (its_line obj, h)
    | None => None
    end.

(** [o.line = v] *)
Definition setLine (o : nat) (v : Z) : Run unit :=
  fun h =>
    match writers h !! o with
    | Some obj =>
        Some (tt, {| canvases := canvases h;
                     writers := <[o := {| its_canvas := its_canvas obj;
                                          its_line := v;
                                          its_texts := its_texts obj |}]> (writers h) |})
    | None => None
    end.

(** [o.texts], read as a value *)
Definition getTexts (o : nat) : Run (list LineRecord) :=
  fun h =>
    match writers h !! o with
    | Some obj => Some (its_texts obj, h)
    | None => None
    end.

(** [o.texts.push(r)] *)
Definition pushText (o : nat) (r : LineRecord) : Run unit :=
  fun h =>
    match writers h !! o with
    | Some obj =>
        Some (tt, {| canvases := canvases h;
                     writers := <[o := {| its_canvas := its_canvas obj;
                                          its_line := its_line obj;
                                          its_texts := its_texts obj ++ [r] |}]>
                                  (writers h) |})
    | None => None
    end.

(** The history of [o.ctx] *)
Definition getCtx (o : nat) : Run Context2D :=
  fun h =>
    match writers h !! o with
    | Some obj =>
        match canvases h !! its_canvas obj with
        | Some c => Some (ctx c, h)
        | None => None
        end
    | None => None
    end.

(** A call on [o.ctx] *)
Definition ctxCall (o : nat) (c : Call) : Run unit :=
  fun h =>
    match writers h !! o with
    | Some obj =>
        match canvases h !! its_canvas obj with
        | Some cv =>
            Some (tt, {| canvases := <[its_canvas obj :=
                                         {| canvasWidth := canvasWidth cv;
                                            canvasHeight := canvasHeight cv;
                                            ctx := ctx cv ++ [c] |}]> (canvases h);
                         writers := writers h |})
        | None => None
        end
    | None => None
    end.

Section HeapMethods.
Context {surface : Surface}.
Local Open Scope run_scope.

(** [this.writeText(text, options, strokeOptions)] *)
Definition writeTextAt (this : nat) (text : string) (options : WriteOptions)
                       (strokeOptions : StrokeOptions) : Run unit :=
  ctxCall this Save ;;
  let maxLines := JS.or_num (o_maxLines options) 0 in
  count <- getTexts this ;;
  if (maxLines <=? Z.of_nat (List.length count)) && (0 <? maxLines) then ret tt
  else
    let offsetX := JS.or_num (o_x options) 5 in
    let offsetY := JS.or_num (o_y options) 5 in
    let spacing := JS.or_num (o_spacing options) 0 in
    line0 <- getLine this ;;
    let spacing := if line0 =? 0 then 0 else spacing in
    ctxCall this (SetFont (JS.or_str (o_font options) "16px serif")) ;;
    ctxCall this (SetFillStyle (JS.or_str (o_style options) "white")) ;;
    ctxCall this (SetTextAlign (JS.or_str (o_align options) "start")) ;;
    ctxCall this (SetShadowColor (o_shadowColor options)) ;;
    ctxCall this (SetShadowOffsetX (JS.or_num (o_shadowX options) 0)) ;;
    ctxCall this (SetShadowOffsetY (JS.or_num (o_shadowY options) 0)) ;;
    ctxCall this (SetShadowBlur (JS.or_num (o_shadowBlur options) 0)) ;;
    ctxCall this (SetStrokeStyle (s_style strokeOptions)) ;;
    ctxCall this (SetLineWidth (s_width strokeOptions)) ;;
    ctxCall this (SetLineJoin (s_join strokeOptions)) ;;
    h <- getCtx this ;;
    let measure := measureText h text in
    if strokeActive strokeOptions then
      let xSpace :=
        (if String.eqb (textAlign h) "center" then 0
         else actualBoundingBoxLeft measure + lineWidth h) + offsetX in
      line1 <- getLine this ;;
      let ySpace :=
        line1 + actualBoundingBoxAscent measure + lineWidth h + spacing + offsetY in
      pushText this {| text := text; xSpace := xSpace; ySpace := ySpace;
                       options := options; strokeOptions := strokeOptions |} ;;
      ctxCall this (StrokeText text xSpace ySpace) ;;
      ctxCall this (FillText text xSpace ySpace) ;;
      line2 <- getLine this ;;
      h' <- getCtx this ;;
      setLine this (line2 + (actualBoundingBoxAscent measure + emHeightDescent measure
                             + lineWidth h' + spacing))
    else
      let xSpace :=
        (if String.eqb (textAlign h) "center" then 0
         else actualBoundingBoxLeft measure) + offsetX in
      line1 <- getLine this ;;
      let ySpace := line1 + actualBoundingBoxAscent measure + spacing + offsetY in
      pushText this {| text := text; xSpace := xSpace; ySpace := ySpace;
                       options := options; strokeOptions := strokeOptions |} ;;
      ctxCall this (FillText text xSpace ySpace) ;;
      line2 <- getLine this ;;
      setLine this (line2 + (actualBoundingBoxAscent measure + emHeightDescent measure
                             + spacing)) ;;
      ctxCall this Restore.

(** [toClone.forEach(t => ...)] *)
Fixpoint forEachAt {A : Type} (f : A -> Run unit) (a : list A) : Run unit :=
  match a with
  | [] => ret tt
  | t :: a' => f t ;; forEachAt f a'
  end.

(** [this.cloneFrom(source, limit)] as a computation: the log of the
    source is read, and copied by [slice], before anything is written. *)
Definition cloneFromRun (this source : nat) (limit : option Z) : Run unit :=
  sourceTexts <- getTexts source ;;
  let limit := match limit with
               | Some l => l
               | None => Z.of_nat (List.length sourceTexts)
               end in
  let toClone := JS.arr_slice sourceTexts 0 (Some limit) in
  forEachAt (fun t => writeTextAt this (text t) (options t) (strokeOptions t)) toClone.

(** [target.cloneFrom(source, limit)]: the heap it leaves. *)
Definition cloneFromAt (target source : nat) (limit : option Z) (h : Heap)
  : option Heap :=
  match cloneFromRun target source limit h with
  | Some (_, h') => Some h'
  | None => None
  end.

End HeapMethods.

(** ** The export methods

    [dataURL], [buffer] and [saveFile] return promises.  A promise is
    pending until it is settled, and only the first call of [resolve] or
    [reject] settles it.  The asynchronous calls of node-canvas and of [fs]
    hand their callback an error or a value; that outcome is a parameter
    here, and the promise below is the state the method's promise ends in
    once the callbacks have run. *)

Inductive Promise (A : Type) : Type :=
| Pending
| Fulfilled (v : A)
| Rejected (e : string).

Arguments Pending {A}.
Arguments Fulfilled {A} v.
Arguments Rejected {A} e.

Definition resolve {A : Type} (v : A) (p : Promise A) : Promise A :=
  match p with
  | Pending => Fulfilled v
  | _ => p
  end.

Definition reject {A : Type} (e : string) (p : Promise A) : Promise A :=
  match p with
  | Pending => Rejected e
  | _ => p
  end.

(** The arguments [(err, value)] of a callback. *)
Inductive Outcome (A : Type) : Type :=
| Failed (err : string)
| Done (v : A).

Arguments Failed {A} err.
Arguments Done {A} v.

(** [dataURL(type, options)], given what [canvas.toDataURL] hands over:
    [if (err) return reject(err); resolve(url);]. *)
Definition dataURL (toDataURL : Outcome string) : Promise string :=
  match toDataURL with
  | Failed err => reject err Pending
  | Done url => resolve url Pending
  end.

(** [buffer()], given what [canvas.toBuffer] hands over. *)
Definition buffer (toBuffer : Outcome string) : Promise string :=
  match toBuffer with
  | Failed err => reject err Pending
  | Done b => resolve b Pending
  end.

(** [saveFile(path, options)]: the [then] callback runs only when
    [this.buffer()] is fulfilled, and no callback is given for its
    rejection; in the callback of [fs.writeFile], [reject(err)] is not
    followed by [return], so [resolve(path)] is called in both cases. *)
Definition saveFile (path : string) (toBuffer : Outcome string)
                    (writeFile : option string) : Promise string :=
  match buffer toBuffer with
  | Fulfilled _ =>
      let p := match writeFile with
               | Some err => reject err Pending
               | None => Pending
               end in
      resolve path p
  | _ => Pending
  end.

(** ** A concrete surface

    A fixed-pitch face: every character is 10 units wide, with ascent 12,
    em descent 4 and left bearing 1.  [textAlign] and [lineWidth] follow
    the canvas rules: an assignment of an unknown alignment or of a width
    that is not positive is ignored, [save] and [restore] stack the
    attributes, and the initial values are ['start'] and [1]. *)

Module FixedPitch.

Record Attrs : Type := { a_align : string; a_lineWidth : Z }.

Definition initial : Attrs := {| a_align := "start"; a_lineWidth := 1 |}.

Definition validAlign (v : string) : bool :=
  String.eqb v "start" || String.eqb v "end" || String.eqb v "left"
  || String.eqb v "right" || String.eqb v "center".

Fixpoint replay (h : Context2D) (cur : Attrs) (stack : list Attrs) : Attrs :=
  match h with
  | [] => cur
  | Save :: h' => replay h' cur (cur :: stack)
  | Restore :: h' =>
      match stack with
      | a :: stack' => replay h' a stack'
      | [] => replay h' cur []
      end
  | SetTextAlign v :: h' =>
      replay h' (if validAlign v
                 then {| a_align := v; a_lineWidth := a_lineWidth cur |}
                 else cur) stack
  | SetLineWidth (Some v) :: h' =>
      replay h' (if 0 <? v
                 then {| a_align := a_align cur; a_lineWidth := v |}
                 else cur) stack
  | _ :: h' => replay h' cur stack
  end.

Definition metrics (s : string) : TextMetrics :=
  {| width := 10 * Z.of_nat (String.length s);
     actualBoundingBoxLeft := 1;
     actualBoundingBoxAscent := 12;
     emHeightDescent := 4 |}.

Definition surface : Surface :=
  {| measureText := fun _ s => metrics s;
     textAlign := fun h => a_align (replay h initial []);
     lineWidth := fun h => a_lineWidth (replay h initial []) |}.

Definition blank : Canvas := {| canvasWidth := 200; canvasHeight := 200; ctx := [] |}.

End FixedPitch.

(** ** Notions used in the statements *)

(** The context on which [writeText] measures: after [save] and the
    attribute assignments. *)
Definition measuring (o : WriteOptions) (s : StrokeOptions) (this : CanvasWriter)
  : Context2D :=
  ctx (canvas (configure o s (call Save this))).

(** The effective spacing: none on a writer whose cursor is at zero. *)
Definition spacingOf (o : WriteOptions) (this : CanvasWriter) : Z :=
  if line this =? 0 then 0 else JS.or_num (o_spacing o) 0.

(** The record [writeText] appends on [this]: it is measured on the
    context of [this] and placed from the cursor of [this]. *)
Definition placed `{Surface} (t : string) (o : WriteOptions) (s : StrokeOptions)
                  (this : CanvasWriter) : LineRecord :=
  let h := measuring o s this in
  let m := measureText h t in
  let strokeWidth := if strokeActive s then lineWidth h else 0 in
  {| text := t;
     xSpace := (if String.eqb (textAlign h) "center" then 0
                else actualBoundingBoxLeft m + strokeWidth) + JS.or_num (o_x o) 5;
     ySpace := line this + actualBoundingBoxAscent m + strokeWidth
               + spacingOf o this + JS.or_num (o_y o) 5;
     options := o;
     strokeOptions := s |}.

(** The condition of the character loop at a string: too wide, and longer
    than one character. *)
Definition tooWide (measureWidth : string -> Z) (maxWidth : Z) (s : string) : bool :=
  (maxWidth <? measureWidth s) && (1 <? Z.of_nat (String.length s)).

(** A string without a space character. *)
Fixpoint noSpace (w : string) : Prop :=
  match w with
  | EmptyString => True
  | String c w' => c <> sp /\ noSpace w'
  end.

(** The number of characters other than spaces. *)
Fixpoint letters (s : string) : nat :=
  match s with
  | EmptyString => O
  | String c s' => if Ascii.eqb c sp then letters s' else S (letters s')
  end.

(** The recursion of [splitToFit] decreases the length of the text plus
    its number of non-space characters. *)
Definition weight (s : string) : nat := (String.length s + letters s)%nat.

(** The strings of a list that are not empty. *)
Definition nonEmpty (l : list string) : list string :=
  List.filter (fun t => negb (String.eqb t "")) l.

(** The tokens of some lines: every line split at its spaces, in the order
    of the lines, the empty tokens left aside. *)
Definition tokens (out : list string) : list string :=
  nonEmpty (List.concat (List.map (JS.split sp) out)).

(** [Cut words toks]: [toks] are the [words], one after the other, each
    either whole or cut into non-empty pieces that put end to end give the
    word back; only a word that alone measures more than [maxWidth] is
    cut. *)
Inductive Cut (measureWidth : string -> Z) (maxWidth : Z)
  : list string -> list string -> Prop :=
| Cut_nil : Cut measureWidth maxWidth [] []
| Cut_whole (w : string) (ws ts : list string) :
    Cut measureWidth maxWidth ws ts ->
    Cut measureWidth maxWidth (w :: ws) (w :: ts)
| Cut_pieces (w : string) (ws ps ts : list string) :
    maxWidth < measureWidth w ->
    String.concat "" ps = w ->
    Forall (fun p => p <> "") ps ->
    Cut measureWidth maxWidth ws ts ->
    Cut measureWidth maxWidth (w :: ws) (ps ++ ts).

(** The tabulation character. *)
Definition tab : ascii := Ascii.ascii_of_nat 9.

(** The log only holds records written with options that [okWrite] admits. *)
Definition okLog (okWrite : WriteOptions -> StrokeOptions -> Prop)
                 (this : CanvasWriter) : Prop :=
  Forall (fun r => okWrite (options r) (strokeOptions r)) (texts this).

(** A method call whose options [okWrite] admits; for [cloneFrom], the
    options are those of the records of the source. *)
Definition okOp (okWrite : WriteOptions -> StrokeOptions -> Prop) (op : Op) : Prop :=
  match op with
  | DrawBackground _ | DrawBackgroundImage _ | CloneSelf _ => True
  | WriteText _ o s | WriteLines _ o s
  | WriteWrapped _ _ o s | WriteWrappedLines _ _ o s
  | WriteWordWrapped _ _ o s | WriteWordWrappedLines _ _ o s
  | Write _ _ o s => okWrite o s
  | CloneFrom source _ => okLog okWrite source
  end.

(** The [spacing] an options value yields is not negative. *)
Definition spacingNonNeg (o : WriteOptions) (s : StrokeOptions) : Prop :=
  0 <= JS.or_num (o_spacing o) 0.

(** Values used in the examples. *)

Definition fixedWidth (s : string) : Z := width (FixedPitch.metrics s).

Definition withSpacing (v : Z) : WriteOptions :=
  {| o_x := None; o_y := None; o_spacing := Some v; o_font := None; o_style := None;
     o_align := None; o_maxLines := None; o_shadowColor := None; o_shadowX := None;
     o_shadowY := None; o_shadowBlur := None |}.

Definition strokeWidthOnly (v : Z) : StrokeOptions :=
  {| s_style := None; s_width := Some v; s_join := None |}.

Definition oneWriter : Heap :=
  let w := @writeText FixedPitch.surface "a" noOptions noStroke (new FixedPitch.blank) in
  {| canvases := {[ 0%nat := canvas w ]};
     writers := {[ 0%nat := {| its_canvas := 0%nat;
                               its_line := line w;
                               its_texts := texts w |} ]} |}.

(** What a computation on the heap that only writes the object [o] keeps:
    every other writer object, and the presence of every canvas. *)
Definition leavesOthers (o : nat) (h h' : Heap) : Prop :=
  (forall o' : nat, o' <> o -> writers h' !! o' = writers h !! o')
  /\ (forall c : nat, is_Some (canvases h !! c) -> is_Some (canvases h' !! c)).

Definition touchesOnly {A : Type} (o : nat) (m : Run A) : Prop :=
  forall (h : Heap) (a : A) (h' : Heap), m h = Some (a, h') -> leavesOthers o h h'.

(** ** Further notions *)

(** The text without its spaces. *)
Fixpoint ink (s : string) : string :=
  match s with
  | EmptyString => EmptyString
  | String c s' => if Ascii.eqb c sp then ink s' else String c (ink s')
  end.

(** A line that fits, or cannot be made shorter. *)
Definition fitsOrChar (measureWidth : string -> Z) (maxWidth : Z) (l : string) : Prop :=
  measureWidth l <= maxWidth \/ (String.length l <= 1)%nat.

(** Options whose [maxLines] is missing, zero or negative: no cap. *)
Definition noCap (o : WriteOptions) : Prop := JS.or_num (o_maxLines o) 0 <= 0.

(** Two option values that [||] turns into the same values. *)
Definition sameDefaults (o o' : WriteOptions) : Prop :=
  JS.or_num (o_x o) 5 = JS.or_num (o_x o') 5
  /\ JS.or_num (o_y o) 5 = JS.or_num (o_y o') 5
  /\ JS.or_str (o_font o) "16px serif" = JS.or_str (o_font o') "16px serif"
  /\ JS.or_str (o_style o) "white" = JS.or_str (o_style o') "white"
  /\ JS.or_str (o_align o) "start" = JS.or_str (o_align o') "start"
  /\ JS.or_num (o_maxLines o) 0 = JS.or_num (o_maxLines o') 0
  /\ o_shadowColor o = o_shadowColor o'
  /\ JS.or_num (o_shadowX o) 0 = JS.or_num (o_shadowX o') 0
  /\ JS.or_num (o_shadowY o) 0 = JS.or_num (o_shadowY o') 0
  /\ JS.or_num (o_shadowBlur o) 0 = JS.or_num (o_shadowBlur o') 0.

(** The number of [save] calls of a context that no [restore] has matched. *)
Fixpoint saveDepth (h : Context2D) : Z :=
  match h with
  | [] => 0
  | Save :: h' => 1 + saveDepth h'
  | Restore :: h' => -1 + saveDepth h'
  | _ :: h' => saveDepth h'
  end.

(** Options that only set [maxLines]. *)
Definition withMaxLines (k : Z) : WriteOptions :=
  {| o_x := None; o_y := None; o_spacing := None; o_font := None; o_style := None;
     o_align := None; o_maxLines := Some k; o_shadowColor := None; o_shadowX := None;
     o_shadowY := None; o_shadowBlur := None |}.

(** What a record says was drawn, and where. *)
Definition position (r : LineRecord) : string * Z * Z := (text r, xSpace r, ySpace r).

(** Options whose every defaulted field holds the falsy value of its type. *)
Definition falsyOptions : WriteOptions :=
  {| o_x := Some 0; o_y := Some 0; o_spacing := Some 0; o_font := Some "";
     o_style := Some ""; o_align := Some ""; o_maxLines := Some 0;
     o_shadowColor := None; o_shadowX := Some 0; o_shadowY := Some 0;
     o_shadowBlur := Some 0 |}.

(** The heights (ascent plus em descent) of some lines, added up. *)
Fixpoint totalHeight (metrics : string -> TextMetrics) (l : list string) : Z :=
  match l with
  | [] => 0
  | t :: l' =>
      actualBoundingBoxAscent (metrics t) + emHeightDescent (metrics t)
      + totalHeight metrics l'
  end.

(** * Properties *)

(** ** The single-line primitive *)

Section WriteText.
Context {surface : Surface}.

Lemma call_frame (c : Call) (this : CanvasWriter) :
  line (call c this) = line this
  /\ texts (call c this) = texts this
  /\ ctx (canvas (call c this)) = ctx (canvas this) ++ [c].
Proof. repeat split. Qed.

Lemma capped_call (c : Call) (o : WriteOptions) (this : CanvasWriter) :
  capped o (call c this) = capped o this.
Proof. reflexivity. Qed.

Lemma configure_frame (o : WriteOptions) (s : StrokeOptions) (this : CanvasWriter) :
  line (configure o s this) = line this /\ texts (configure o s this) = texts this.
Proof. split; reflexivity. Qed.

Lemma writeText_capped (t : string) (o : WriteOptions) (s : StrokeOptions)
                       (this : CanvasWriter) :
  capped o this = true -> writeText t o s this = call Save this.
Proof.
  intros Hcap. unfold writeText. rewrite capped_call, Hcap. reflexivity.
Qed.

Lemma writeText_stroke (t : string) (o : WriteOptions) (s : StrokeOptions)
                       (this : CanvasWriter) :
  capped o this = false -> strokeActive s = true ->
  let h := measuring o s this in
  let m := measureText h t in
  let xSpace := (if String.eqb (textAlign h) "center" then 0
                 else actualBoundingBoxLeft m + lineWidth h) + JS.or_num (o_x o) 5 in
  let ySpace := line this + actualBoundingBoxAscent m + lineWidth h
                + spacingOf o this + JS.or_num (o_y o) 5 in
  let r := {| text := t; xSpace := xSpace; ySpace := ySpace;
              options := o; strokeOptions := s |} in
  let h' := h ++ [StrokeText t xSpace ySpace; FillText t xSpace ySpace] in
  writeText t o s this =
    {| canvas := {| canvasWidth := canvasWidth (canvas this);
                    canvasHeight := canvasHeight (canvas this);
                    ctx := h' |};
       line := line this + (actualBoundingBoxAscent m + emHeightDescent m
                            + lineWidth h' + spacingOf o this);
       texts := texts this ++ [r] |}.
Proof.
  intros Hcap Hact. unfold writeText. rewrite capped_call, Hcap, Hact.
  unfold measuring, spacingOf, advance, push, call, configure. cbn.
  rewrite <- !app_assoc. reflexivity.
Qed.

Lemma writeText_fill (t : string) (o : WriteOptions) (s : StrokeOptions)
                     (this : CanvasWriter) :
  capped o this = false -> strokeActive s = false ->
  let h := measuring o s this in
  let m := measureText h t in
  let xSpace := (if String.eqb (textAlign h) "center" then 0
                 else actualBoundingBoxLeft m) + JS.or_num (o_x o) 5 in
  let ySpace := line this + actualBoundingBoxAscent m
                + spacingOf o this + JS.or_num (o_y o) 5 in
  let r := {| text := t; xSpace := xSpace; ySpace := ySpace;
              options := o; strokeOptions := s |} in
  writeText t o s this =
    {| canvas := {| canvasWidth := canvasWidth (canvas this);
                    canvasHeight := canvasHeight (canvas this);
                    ctx := h ++ [FillText t xSpace ySpace; Restore] |};
       line := line this + (actualBoundingBoxAscent m + emHeightDescent m
                            + spacingOf o this);
       texts := texts this ++ [r] |}.
Proof.
  intros Hcap Hact. unfold writeText. rewrite capped_call, Hcap, Hact.
  unfold measuring, spacingOf, advance, push, call, configure. cbn.
  rewrite <- !app_assoc. reflexivity.
Qed.

End WriteText.

(** ** Facts about the JavaScript primitives *)

Section StringFacts.

Lemma str_app_cons (c : ascii) (a b : string) :
  String c a +:+ b = String c (a +:+ b).
Proof. reflexivity. Qed.

Lemma str_length_cons (c : ascii) (a : string) :
  String.length (String c a) = S (String.length a).
Proof. reflexivity. Qed.

Lemma str_length_app (a b : string) :
  String.length (a +:+ b) = (String.length a + String.length b)%nat.
Proof.
  induction a as [|c a IH]; [reflexivity|].
  rewrite str_app_cons, !str_length_cons, IH. reflexivity.
Qed.

Lemma str_app_nil_r (a : string) : a +:+ "" = a.
Proof. induction a as [|c a IH]; [reflexivity|]. now rewrite str_app_cons, IH. Qed.

Lemma str_app_assoc (a b c : string) : (a +:+ b) +:+ c = a +:+ (b +:+ c).
Proof. induction a as [|x a IH]; [reflexivity|]. now rewrite !str_app_cons, IH. Qed.

Lemma str_take_drop (n : nat) (s : string) :
  JS.str_take n s +:+ JS.str_drop n s = s.
Proof.
  revert s; induction n as [|n IH]; intros [|c s]; try reflexivity.
  cbn [JS.str_take JS.str_drop]. now rewrite str_app_cons, IH.
Qed.

Lemma str_take_length (n : nat) (s : string) :
  String.length (JS.str_take n s) = Nat.min n (String.length s).
Proof.
  revert s; induction n as [|n IH]; intros [|c s]; simpl; try reflexivity.
  now rewrite IH.
Qed.

Lemma str_drop_length (n : nat) (s : string) :
  String.length (JS.str_drop n s) = (String.length s - n)%nat.
Proof.
  revert s; induction n as [|n IH]; intros [|c s]; simpl; try reflexivity.
  now rewrite IH.
Qed.

Lemma str_take_all (n : nat) (s : string) :
  (String.length s <= n)%nat -> JS.str_take n s = s.
Proof.
  revert s; induction n as [|n IH]; intros [|c s] Hle; simpl in *; try reflexivity.
  - lia.
  - rewrite IH; [reflexivity | lia].
Qed.

Lemma str_take_take (m n : nat) (s : string) :
  (m <= n)%nat -> JS.str_take m (JS.str_take n s) = JS.str_take m s.
Proof.
  revert n s; induction m as [|m IH]; intros [|n] [|c s] Hle; simpl; try reflexivity.
  - lia.
  - rewrite IH; [reflexivity | lia].
Qed.

Lemma str_drop_zero (s : string) : JS.str_drop 0 s = s.
Proof. destruct s; reflexivity. Qed.

(** [s.slice(0, -1)] drops the last character. *)
Lemma slice_drop_last (s : string) :
  JS.slice s 0 (Some (-1)) = JS.str_take (String.length s - 1) s.
Proof.
  unfold JS.slice, JS.relIndex. cbn [Z.ltb Z.compare].
  rewrite Z.min_l by lia. cbn [Z.to_nat]. rewrite str_drop_zero.
  f_equal. lia.
Qed.

(** [s.slice(0)] is the whole string: this is what [slice(-j + 1)]
    becomes when [j] is [1]. *)
Lemma slice_zero (s : string) : JS.slice s 0 None = s.
Proof.
  unfold JS.slice, JS.relIndex. cbn [Z.ltb Z.compare].
  rewrite Z.min_l by lia. cbn [Z.to_nat]. rewrite str_drop_zero, Z.sub_0_r.
  apply str_take_all. lia.
Qed.

(** [s.slice(-d)] keeps the last [d] characters when [1 <= d <= length]. *)
Lemma slice_suffix (s : string) (k : nat) :
  (k < String.length s)%nat ->
  JS.slice s (- (Z.of_nat (String.length s - k) + 1) + 1) None = JS.str_drop k s.
Proof.
  intros Hk. unfold JS.slice, JS.relIndex.
  destruct (Z.ltb_spec (- (Z.of_nat (String.length s - k) + 1) + 1) 0) as [_|Hge]; [|lia].
  rewrite Z.max_l by lia.
  replace (Z.to_nat (Z.of_nat (String.length s)
                     + (- (Z.of_nat (String.length s - k) + 1) + 1))) with k by lia.
  apply str_take_all. rewrite str_drop_length. lia.
Qed.

Lemma concat_cons (x : string) (l : list string) :
  String.concat "" (x :: l) = x +:+ String.concat "" l.
Proof. destruct l; [cbn; now rewrite str_app_nil_r | reflexivity]. Qed.

Lemma concat_app (a b : list string) :
  String.concat "" (a ++ b) = String.concat "" a +:+ String.concat "" b.
Proof.
  induction a as [|x a IH]; [reflexivity|].
  change ((x :: a) ++ b) with (x :: (a ++ b)).
  now rewrite !concat_cons, IH, str_app_assoc.
Qed.

Lemma concat_snoc (a : list string) (x : string) :
  String.concat "" (a ++ [x]) = String.concat "" a +:+ x.
Proof. rewrite concat_app. reflexivity. Qed.

Lemma split_not_nil (sep : ascii) (s : string) : JS.split sep s <> [].
Proof.
  destruct s as [|c s]; cbn; [discriminate|].
  destruct (Ascii.eqb c sep); [discriminate|].
  destruct (JS.split sep s); discriminate.
Qed.

(** [s.split(' ').join(' ')] is [s]. *)
Lemma join_split (s : string) : JS.join " " (JS.split sp s) = s.
Proof.
  induction s as [|c s IH]; [reflexivity|].
  cbn [JS.split]. destruct (Ascii.eqb_spec c sp) as [->|Hne].
  - unfold JS.join in *. cbn [String.concat].
    destruct (JS.split sp s) as [|w ws] eqn:E; [now apply split_not_nil in E|].
    rewrite IH. reflexivity.
  - unfold JS.join in *. destruct (JS.split sp s) as [|w ws] eqn:E;
      [now apply split_not_nil in E|].
    rewrite <- IH. destruct ws; reflexivity.
Qed.

End StringFacts.

(** ** The character-shrinking loop *)

Section Shrink.
Variable measureWidth : string -> Z.
Variable maxWidth : Z.

Local Abbreviation wide := (tooWide measureWidth maxWidth).

Lemma shrink_eq (n : nat) (section : string) (j : Z) :
  Wrapped.shrink measureWidth maxWidth n section j =
    if wide section then
      match n with
      | O => None
      | S n' => Wrapped.shrink measureWidth maxWidth n'
                  (JS.slice section 0 (Some (-1))) (j + 1)
      end
    else Some (section, j).
Proof. destruct n; reflexivity. Qed.

Lemma shrink_same (n : nat) (section : string) (j : Z) :
  WordWrapped.shrink measureWidth maxWidth n section j =
    Wrapped.shrink measureWidth maxWidth n section j.
Proof. reflexivity. Qed.

(** Started on a prefix of [text] of length [k] with [j] counting the
    dropped characters, the loop returns a shorter prefix, keeps at least
    one character, and stops where the loop condition fails. *)
Lemma shrink_prefix (text : string) (n k : nat) :
  (k <= String.length text)%nat -> (k <= S n)%nat ->
  exists k' : nat,
    Wrapped.shrink measureWidth maxWidth n (JS.str_take k text)
                   (Z.of_nat (String.length text - k) + 1)
    = Some (JS.str_take k' text, Z.of_nat (String.length text - k') + 1)
    /\ (k' <= k)%nat
    /\ (1 <= k -> 1 <= k')%nat
    /\ (wide (JS.str_take k text) = true -> k' < k)%nat
    /\ wide (JS.str_take k' text) = false.
Proof.
  revert k; induction n as [|n IH]; intros k Hk Hn; rewrite shrink_eq;
    destruct (wide (JS.str_take k text)) eqn:Hw.
  - exfalso. unfold tooWide in Hw. apply andb_true_iff in Hw as [_ Hlen].
    rewrite str_take_length in Hlen. apply Z.ltb_lt in Hlen. lia.
  - exists k. repeat split; auto; discriminate.
  - assert (Hk2 : (2 <= k)%nat).
    { unfold tooWide in Hw. apply andb_true_iff in Hw as [_ Hlen].
      rewrite str_take_length in Hlen. apply Z.ltb_lt in Hlen. lia. }
    rewrite slice_drop_last, str_take_length, Nat.min_l by exact Hk.
    rewrite str_take_take by lia.
    replace (Z.of_nat (String.length text - k) + 1 + 1)
      with (Z.of_nat (String.length text - (k - 1)) + 1) by lia.
    destruct (IH (k - 1)%nat) as (k' & Heq & Hle & Hpos & _ & Hstop); [lia | lia |].
    exists k'. rewrite Heq. repeat split; auto; try lia.
  - exists k. repeat split; auto; discriminate.
Qed.

(** From the whole text: the emitted section and the value of [j]. *)
Lemma shrink_whole (text : string) :
  exists k' : nat,
    Wrapped.shrink measureWidth maxWidth (String.length text) text 1
    = Some (JS.str_take k' text, Z.of_nat (String.length text - k') + 1)
    /\ (k' <= String.length text)%nat
    /\ (1 <= String.length text -> 1 <= k')%nat
    /\ (wide text = true -> k' < String.length text)%nat
    /\ wide (JS.str_take k' text) = false.
Proof.
  destruct (shrink_prefix text (String.length text) (String.length text))
    as (k' & Heq & H1 & H2 & H3 & H4); [lia | lia |].
  rewrite str_take_all, Nat.sub_diag in Heq by lia.
  rewrite str_take_all in H3 by lia.
  exists k'. repeat split; auto.
Qed.

(** A text of at most one character that is wider than [maxWidth] is its
    own remainder: [j] is still [1], and [text.slice(-j + 1)] is
    [text.slice(0)]. *)
Lemma reduceToFit_wide_char (text : string) :
  (String.length text <= 1)%nat -> maxWidth < measureWidth text ->
  forall (fuel : nat) (results : list string),
    Wrapped.reduceToFit measureWidth maxWidth fuel text results = None.
Proof.
  intros Hlen Hwide fuel. induction fuel as [|fuel IH]; intros results; [reflexivity|].
  cbn [Wrapped.reduceToFit].
  apply Z.ltb_lt in Hwide. rewrite Hwide.
  rewrite shrink_eq.
  assert (Hstop : wide text = false).
  { unfold tooWide. apply andb_false_iff. right. apply Z.ltb_ge. lia. }
  rewrite Hstop. cbn [Z.opp Z.add Z.pos_sub]. rewrite slice_zero. apply IH.
Qed.

(** A text that fits is emitted whole by the hard wrap. *)
Lemma hard_fits (text : string) (fuel : nat) :
  measureWidth text <= maxWidth ->
  Wrapped.lines measureWidth maxWidth (S fuel) text = Some [text].
Proof.
  intros Hfit. unfold Wrapped.lines. cbn [Wrapped.reduceToFit].
  apply Z.ltb_ge in Hfit. rewrite Hfit. reflexivity.
Qed.

(** A non-empty text that fits is emitted whole by the word wrap. *)
Lemma word_fits (text : string) (fuel : nat) :
  text <> "" -> measureWidth text <= maxWidth ->
  WordWrapped.lines measureWidth maxWidth (S fuel) text = Some [text].
Proof.
  intros Hne Hfit. unfold WordWrapped.lines. cbn [WordWrapped.splitToFit].
  apply String.eqb_neq in Hne. rewrite Hne, join_split.
  apply Z.ltb_ge in Hfit. rewrite Hfit. reflexivity.
Qed.

End Shrink.

(** ** Words and spaces *)

Section Words.

Lemma noSpace_drop (n : nat) (w : string) : noSpace w -> noSpace (JS.str_drop n w).
Proof.
  revert w; induction n as [|n IH]; intros [|c w] Hw; cbn in *; auto.
  apply IH, Hw.
Qed.

Lemma noSpace_take (n : nat) (w : string) : noSpace w -> noSpace (JS.str_take n w).
Proof.
  revert w; induction n as [|n IH]; intros [|c w] Hw; cbn in *; auto.
  destruct Hw as [Hc Hw]. split; [exact Hc | apply IH, Hw].
Qed.

Lemma letters_app (a b : string) : letters (a +:+ b) = (letters a + letters b)%nat.
Proof.
  induction a as [|c a IH]; [reflexivity|].
  rewrite str_app_cons. cbn [letters]. destruct (Ascii.eqb c sp); lia.
Qed.

Lemma letters_le (s : string) : (letters s <= String.length s)%nat.
Proof.
  induction s as [|c s IH]; [apply Nat.le_refl|].
  cbn [letters]. rewrite str_length_cons. destruct (Ascii.eqb c sp); lia.
Qed.

Lemma letters_noSpace (w : string) : noSpace w -> letters w = String.length w.
Proof.
  induction w as [|c w IH]; [reflexivity|]. intros [Hc Hw].
  cbn [letters]. rewrite str_length_cons.
  destruct (Ascii.eqb_spec c sp) as [->|_]; [contradiction | now rewrite IH].
Qed.

Lemma split_noSpace (s : string) : Forall noSpace (JS.split sp s).
Proof.
  induction s as [|c s IH]; cbn [JS.split].
  - repeat constructor.
  - destruct (Ascii.eqb_spec c sp) as [->|Hne].
    + constructor; [exact I | exact IH].
    + destruct (JS.split sp s) as [|w ws]; [repeat constructor; assumption|].
      inversion IH; subst. constructor; [split; assumption | assumption].
Qed.

Lemma split_word_space (w s : string) :
  noSpace w -> JS.split sp (w +:+ " " +:+ s) = w :: JS.split sp s.
Proof.
  induction w as [|c w IH]; intros Hw.
  - reflexivity.
  - destruct Hw as [Hc Hw]. rewrite str_app_cons. cbn [JS.split].
    apply Ascii.eqb_neq in Hc. rewrite Hc, (IH Hw). reflexivity.
Qed.

Lemma split_word (w : string) : noSpace w -> JS.split sp w = [w].
Proof.
  induction w as [|c w IH]; intros Hw; [reflexivity|].
  destruct Hw as [Hc Hw]. cbn [JS.split].
  apply Ascii.eqb_neq in Hc. rewrite Hc, (IH Hw). reflexivity.
Qed.

Lemma join_cons (w : string) (ws : list string) :
  ws <> [] -> JS.join " " (w :: ws) = w +:+ " " +:+ JS.join " " ws.
Proof. destruct ws; [contradiction | reflexivity]. Qed.

Lemma join_app (a b : list string) :
  a <> [] -> b <> [] ->
  JS.join " " (a ++ b) = JS.join " " a +:+ " " +:+ JS.join " " b.
Proof.
  intros Ha Hb. induction a as [|w a IH]; [contradiction|].
  destruct a as [|w' a].
  - cbn [app]. now rewrite join_cons.
  - change ((w :: w' :: a) ++ b) with (w :: ((w' :: a) ++ b)).
    rewrite join_cons by discriminate. rewrite IH by discriminate.
    rewrite (join_cons w (w' :: a)) by discriminate.
    now rewrite !str_app_assoc.
Qed.

(** [ws.join(' ').split(' ')] is [ws] for words without spaces. *)
Lemma split_join (ws : list string) :
  ws <> [] -> Forall noSpace ws -> JS.split sp (JS.join " " ws) = ws.
Proof.
  induction ws as [|w ws IH]; intros Hne Hws; [contradiction|].
  inversion Hws as [|? ? Hw Hrest]; subst.
  destruct ws as [|w' ws].
  - apply split_word, Hw.
  - rewrite join_cons by discriminate.
    rewrite split_word_space by exact Hw.
    rewrite IH; [reflexivity | discriminate | exact Hrest].
Qed.

End Words.

(** ** The word-wrap split *)

Section WordSplit.
Variable measureWidth : string -> Z.
Variable maxWidth : Z.

Local Abbreviation wide := (tooWide measureWidth maxWidth).

Lemma popWords_eq (n : nat) (section remainder : list string) :
  WordWrapped.popWords measureWidth maxWidth n section remainder =
    if wide (JS.join " " section) then
      if (List.length section =? 1)%nat
      then Some (WordWrapped.SingleWord section remainder)
      else match n with
           | O => None
           | S n' =>
               WordWrapped.popWords measureWidth maxWidth n'
                 (List.removelast section)
                 (List.last section EmptyString :: remainder)
           end
    else Some (WordWrapped.LoopEnd section remainder).
Proof. destruct n; reflexivity. Qed.

(** What the word loop hands over: the words are only regrouped, the
    working set keeps at least one word, and the [return] inside the loop
    is taken on one word that is too wide. *)
Lemma popWords_spec (n : nat) (section remainder : list string) :
  section <> [] -> (List.length section <= S n)%nat ->
  (exists w rem,
      WordWrapped.popWords measureWidth maxWidth n section remainder
      = Some (WordWrapped.SingleWord [w] rem)
      /\ w :: rem = section ++ remainder
      /\ wide w = true)
  \/ (exists sec rem,
      WordWrapped.popWords measureWidth maxWidth n section remainder
      = Some (WordWrapped.LoopEnd sec rem)
      /\ sec <> []
      /\ sec ++ rem = section ++ remainder).
Proof.
  revert section remainder; induction n as [|n IH]; intros section remainder Hne Hlen;
    rewrite popWords_eq; destruct (wide (JS.join " " section)) eqn:Hw.
  - destruct section as [|w [|w' section]]; [contradiction | | cbn in Hlen; lia].
    left. exists w, remainder. repeat split. exact Hw.
  - right. exists section, remainder. repeat split. exact Hne.
  - destruct (Nat.eqb_spec (List.length section) 1) as [Hone|Hmany].
    + destruct section as [|w [|w' section]]; try discriminate.
      left. exists w, remainder. repeat split. exact Hw.
    + assert (Hsec : section = List.removelast section ++ [List.last section EmptyString])
        by (apply app_removelast_last; exact Hne).
      assert (Hlen' : List.length section = S (List.length (List.removelast section))).
      { rewrite Hsec at 1. rewrite length_app. cbn. lia. }
      assert (Hne' : List.removelast section <> []).
      { intros E. rewrite E in Hlen'. cbn in Hlen'. lia. }
      destruct (IH (List.removelast section)
                   (List.last section EmptyString :: remainder) Hne')
        as [(w & rem & Heq & Hall & Hwide) | (sec & rem & Heq & Hsne & Hall)]; [lia | |].
      * left. exists w, rem. repeat split; auto.
        rewrite Hall.
        change (List.last section EmptyString :: remainder)
          with ([List.last section EmptyString] ++ remainder).
        rewrite app_assoc, <- Hsec. reflexivity.
      * right. exists sec, rem. repeat split; auto.
        rewrite Hall.
        change (List.last section EmptyString :: remainder)
          with ([List.last section EmptyString] ++ remainder).
        rewrite app_assoc, <- Hsec. reflexivity.
  - right. exists section, remainder. repeat split. exact Hne.
Qed.

(** [reduceToFit] on a word that the loop found too wide: a non-empty
    proper prefix is pushed and the non-empty rest is returned. *)
Lemma reduceToFit_word (w : string) (results : list string) :
  wide w = true ->
  exists k : nat,
    WordWrapped.reduceToFit measureWidth maxWidth w results
    = Some (JS.str_drop k w, results ++ [JS.str_take k w])
    /\ (1 <= k)%nat /\ (k < String.length w)%nat.
Proof.
  intros Hw. unfold WordWrapped.reduceToFit.
  pose proof Hw as Hw'. unfold tooWide in Hw'.
  apply andb_true_iff in Hw' as [Hwidth Hlen]. rewrite Hwidth.
  apply Z.ltb_lt in Hlen.
  rewrite shrink_same.
  destruct (shrink_whole measureWidth maxWidth w) as (k & Heq & _ & Hpos & Hlt & _).
  rewrite Heq. exists k. rewrite slice_suffix by (apply Hlt, Hw).
  repeat split; [apply Hpos; lia | apply Hlt, Hw].
Qed.

End WordSplit.

Section WordLines.
Variable measureWidth : string -> Z.
Variable maxWidth : Z.

Local Abbreviation wide := (tooWide measureWidth maxWidth).

(** *** Every recursion of [splitToFit] returns *)

Lemma weight_after_hard_split (w : string) (rem : list string) (k : nat) :
  noSpace w -> (1 <= k)%nat -> (k < String.length w)%nat ->
  (weight (JS.str_drop k w +:+ " " +:+ JS.join " " rem)
   < weight (JS.join " " (w :: rem)))%nat.
Proof.
  intros Hw Hk1 Hk2. unfold weight.
  pose proof (letters_le (JS.str_drop k w)) as Hle.
  rewrite str_drop_length in Hle.
  destruct rem as [|r rem].
  - change (JS.join " " [w]) with w. change (JS.join " " []) with "".
    rewrite !str_length_app, !letters_app, str_drop_length, (letters_noSpace w Hw).
    cbn. lia.
  - rewrite (join_cons w (r :: rem)) by discriminate.
    rewrite !str_length_app, !letters_app, str_drop_length, (letters_noSpace w Hw).
    lia.
Qed.

Lemma weight_of_rest (sec rem : list string) :
  sec <> [] -> JS.join " " (sec ++ rem) <> "" ->
  (weight (JS.join " " rem) < weight (JS.join " " (sec ++ rem)))%nat.
Proof.
  intros Hsec Hne. unfold weight. destruct rem as [|r rem].
  - change (JS.join " " []) with "". cbn [String.length letters].
    destruct (JS.join " " (sec ++ [])) eqn:E; [contradiction|].
    rewrite str_length_cons. lia.
  - rewrite join_app by (assumption || discriminate).
    rewrite !str_length_app, !letters_app. cbn. lia.
Qed.

Lemma splitToFit_returns (fuel : nat) :
  forall (text : string) (results : list string),
    (weight text < fuel)%nat ->
    exists out, WordWrapped.splitToFit measureWidth maxWidth fuel text results = Some out.
Proof.
  induction fuel as [|fuel IH]; intros text results Hfuel; [lia|].
  cbn [WordWrapped.splitToFit].
  destruct (String.eqb_spec text "") as [->|Hne]; [eauto|].
  rewrite join_split.
  destruct (maxWidth <? measureWidth text); [|eauto].
  destruct (popWords_spec measureWidth maxWidth
              (List.length (JS.split sp text)) (JS.split sp text) [])
    as [(w & rem & Heq & Hall & Hw) | (sec & rem & Heq & Hsne & Hall)];
    [apply split_not_nil | lia | |]; rewrite Heq; rewrite app_nil_r in Hall.
  - change (JS.join " " [w]) with w.
    destruct (reduceToFit_word measureWidth maxWidth w results Hw)
      as (k & Hred & Hk1 & Hk2).
    rewrite Hred. apply IH.
    pose proof (split_noSpace text) as Hns. rewrite <- Hall in Hns.
    inversion Hns as [|? ? Hnw _]; subst.
    pose proof (weight_after_hard_split w rem k Hnw Hk1 Hk2) as Hlt.
    rewrite Hall, join_split in Hlt. lia.
  - apply IH.
    assert (Hlt : (weight (JS.join " " rem) < weight (JS.join " " (sec ++ rem)))%nat).
    { apply weight_of_rest; [exact Hsne|]. now rewrite Hall, join_split. }
    rewrite Hall, join_split in Hlt. lia.
Qed.

(** *** What the emitted lines are made of *)

Local Abbreviation cut := (Cut measureWidth maxWidth).

Lemma nonEmpty_app (a b : list string) : nonEmpty (a ++ b) = nonEmpty a ++ nonEmpty b.
Proof. apply List.filter_app. Qed.

Lemma nonEmpty_cons (w : string) (l : list string) :
  w <> "" -> nonEmpty (w :: l) = w :: nonEmpty l.
Proof.
  intros Hw. unfold nonEmpty. cbn [List.filter].
  apply String.eqb_neq in Hw. now rewrite Hw.
Qed.

Lemma not_empty_of_length (w : string) : (1 <= String.length w)%nat -> w <> "".
Proof. intros Hlen ->. cbn in Hlen. lia. Qed.

Lemma tokens_snoc (results : list string) (l : string) :
  tokens (results ++ [l]) = tokens results ++ nonEmpty (JS.split sp l).
Proof.
  unfold tokens. rewrite List.map_app, List.concat_app, nonEmpty_app.
  cbn [List.map List.concat]. now rewrite app_nil_r.
Qed.

Lemma nonEmpty_split_join (ws : list string) :
  Forall noSpace ws -> nonEmpty (JS.split sp (JS.join " " ws)) = nonEmpty ws.
Proof.
  intros Hws. destruct ws as [|w ws]; [reflexivity|].
  rewrite split_join; [reflexivity | discriminate | exact Hws].
Qed.

Lemma Cut_refl (ws : list string) : cut ws ws.
Proof. induction ws; constructor; assumption. Qed.

Lemma Cut_app (a ws ts : list string) : cut ws ts -> cut (a ++ ws) (a ++ ts).
Proof. intros H. induction a; [exact H | now constructor]. Qed.

Lemma Cut_head (w : string) (ws toks : list string) :
  w <> "" -> cut (w :: ws) toks ->
  exists ps ts : list string,
    toks = ps ++ ts /\ String.concat "" ps = w /\ Forall (fun p => p <> "") ps /\ cut ws ts.
Proof.
  intros Hw H. inversion H as [|? ? ts Hrest|? ? ps ts Hwide Hcat Hps Hrest]; subst.
  - exists [w], ts. repeat split; [repeat constructor; exact Hw | exact Hrest].
  - exists ps, ts. repeat split; assumption.
Qed.

(** The tokens emitted from a text on are its words, cut only where a
    word of that text is too wide. *)
Lemma splitToFit_cut (fuel : nat) :
  forall (text : string) (results out : list string),
    WordWrapped.splitToFit measureWidth maxWidth fuel text results = Some out ->
    exists ts : list string,
      tokens out = tokens results ++ ts /\ cut (nonEmpty (JS.split sp text)) ts.
Proof.
  induction fuel as [|fuel IH]; intros text results out Hrun; [discriminate|].
  cbn [WordWrapped.splitToFit] in Hrun.
  destruct (String.eqb_spec text "") as [->|Hne].
  { injection Hrun as <-. exists []. rewrite app_nil_r. split; [reflexivity | constructor]. }
  rewrite join_split in Hrun.
  pose proof (split_noSpace text) as Hns.
  destruct (maxWidth <? measureWidth text).
  - destruct (popWords_spec measureWidth maxWidth
                (List.length (JS.split sp text)) (JS.split sp text) [])
      as [(w & rem & Heq & Hall & Hw) | (sec & rem & Heq & Hsne & Hall)];
      [apply split_not_nil | lia | |]; rewrite Heq in Hrun; rewrite app_nil_r in Hall;
      rewrite <- Hall in Hns; rewrite <- Hall.
    + change (JS.join " " [w]) with w in Hrun.
      destruct (reduceToFit_word measureWidth maxWidth w results Hw)
        as (k & Hred & Hk1 & Hk2).
      rewrite Hred in Hrun.
      apply Forall_cons in Hns as [Hnw Hnrem].
      assert (Hwne : w <> "") by (apply not_empty_of_length; lia).
      assert (Htake : JS.str_take k w <> "").
      { apply not_empty_of_length. rewrite str_take_length. lia. }
      assert (Hdrop : JS.str_drop k w <> "").
      { apply not_empty_of_length. rewrite str_drop_length. lia. }
      assert (Hwide : maxWidth < measureWidth w).
      { unfold tooWide in Hw. apply andb_true_iff in Hw as [Hw _]. now apply Z.ltb_lt. }
      apply IH in Hrun as (ts' & Htok & Hcut).
      rewrite tokens_snoc, (split_word (JS.str_take k w)) in Htok
        by (apply noSpace_take; exact Hnw).
      rewrite (nonEmpty_cons _ [] Htake) in Htok. change (nonEmpty []) with (@nil string) in Htok.
      rewrite split_word_space in Hcut by (apply noSpace_drop; exact Hnw).
      rewrite (nonEmpty_cons _ _ Hdrop), nonEmpty_split_join in Hcut by exact Hnrem.
      destruct (Cut_head _ _ _ Hdrop Hcut) as (ps & ts'' & -> & Hcat & Hps & Hrest).
      exists ((JS.str_take k w :: ps) ++ ts''). split.
      * rewrite Htok, <- app_assoc. reflexivity.
      * rewrite (nonEmpty_cons _ _ Hwne). apply Cut_pieces; try assumption.
        -- now rewrite concat_cons, Hcat, str_take_drop.
        -- constructor; assumption.
    + apply Forall_app in Hns as [Hnsec Hnrem].
      apply IH in Hrun as (ts' & Htok & Hcut).
      rewrite tokens_snoc, split_join in Htok by assumption.
      rewrite nonEmpty_split_join in Hcut by exact Hnrem.
      exists (nonEmpty sec ++ ts'). split.
      * rewrite Htok, <- app_assoc. reflexivity.
      * rewrite nonEmpty_app. apply Cut_app, Hcut.
  - injection Hrun as <-. exists (nonEmpty (JS.split sp text)).
    split; [apply tokens_snoc | apply Cut_refl].
Qed.

End WordLines.

(** ** Sequences of method calls

    Every mutator is a sequence of context calls and of [writeText] calls.
    A relation between the writer before and after that holds across both
    kinds of step therefore holds across every method and every sequence
    of methods. *)

Section Steps.
Context {surface : Surface}.

Lemma writeText_log (t : string) (o : WriteOptions) (s : StrokeOptions)
                    (this : CanvasWriter) :
  texts (writeText t o s this) = texts this
  \/ exists x y : Z,
      texts (writeText t o s this)
      = texts this ++ [{| text := t; xSpace := x; ySpace := y;
                          options := o; strokeOptions := s |}].
Proof.
  destruct (capped o this) eqn:Hcap.
  - left. now rewrite writeText_capped.
  - right. destruct (strokeActive s) eqn:Hact.
    + rewrite writeText_stroke by assumption. cbn. eauto.
    + rewrite writeText_fill by assumption. cbn. eauto.
Qed.

Variable R : CanvasWriter -> CanvasWriter -> Prop.
Variable okWrite : WriteOptions -> StrokeOptions -> Prop.

Hypothesis R_refl : forall this, R this this.
Hypothesis R_trans : forall a b c, R a b -> R b c -> R a c.
Hypothesis R_call : forall c this, R this (call c this).
Hypothesis R_writeText :
  forall t o s this, okWrite o s -> R this (writeText t o s this).

Local Abbreviation logOk := (okLog okWrite).
Local Abbreviation opOk := (okOp okWrite).

Lemma okLog_writeText (t : string) (o : WriteOptions) (s : StrokeOptions)
                      (this : CanvasWriter) :
  okWrite o s -> logOk this -> logOk (writeText t o s this).
Proof using Type.
  intros Hok Hlog. unfold okLog.
  destruct (writeText_log t o s this) as [-> | (x & y & ->)]; [exact Hlog|].
  apply Forall_app; split; [exact Hlog|]. constructor; [exact Hok | constructor].
Qed.

Lemma writeTexts_preserve (o : WriteOptions) (s : StrokeOptions) (l : list string) :
  okWrite o s ->
  forall this, logOk this ->
    R this (fold_left (fun this t => writeText t o s this) l this)
    /\ logOk (fold_left (fun this t => writeText t o s this) l this).
Proof using All.
  intros Hok. induction l as [|t l IH]; intros this Hlog; cbn [fold_left].
  - split; [apply R_refl | exact Hlog].
  - destruct (IH (writeText t o s this)) as [HR Hlog'];
      [now apply okLog_writeText|].
    split; [|exact Hlog'].
    eapply R_trans; [apply R_writeText, Hok | exact HR].
Qed.

Lemma replay_preserve (l : list LineRecord) :
  Forall (fun r => okWrite (options r) (strokeOptions r)) l ->
  forall this, logOk this ->
    R this (fold_left (fun this t => writeText (text t) (options t) (strokeOptions t) this)
                      l this)
    /\ logOk (fold_left (fun this t => writeText (text t) (options t) (strokeOptions t) this)
                        l this).
Proof using All.
  induction l as [|r l IH]; intros Hl this Hlog; cbn [fold_left].
  - split; [apply R_refl | exact Hlog].
  - inversion Hl as [|? ? Hr Hrest]; subst.
    destruct (IH Hrest (writeText (text r) (options r) (strokeOptions r) this))
      as [HR Hlog']; [now apply okLog_writeText|].
    split; [|exact Hlog'].
    eapply R_trans; [apply R_writeText, Hr | exact HR].
Qed.

Lemma cloneFrom_preserve (source : CanvasWriter) (limit : option Z)
                         (this : CanvasWriter) :
  logOk source -> logOk this ->
  R this (cloneFrom source limit this) /\ logOk (cloneFrom source limit this).
Proof using All.
  intros Hsrc Hlog. unfold cloneFrom. apply replay_preserve; [|exact Hlog].
  unfold JS.arr_slice. apply Forall_take, Forall_drop, Hsrc.
Qed.

Lemma forEach_preserve {A : Type} (f : A -> CanvasWriter -> option CanvasWriter)
                       (P : A -> Prop) (l : list A) :
  (forall a this this', P a -> logOk this -> f a this = Some this' ->
                        R this this' /\ logOk this') ->
  Forall P l ->
  forall this this', logOk this -> forEach f l this = Some this' ->
                     R this this' /\ logOk this'.
Proof using R_refl R_trans.
  intros Hf. induction l as [|a l IH]; intros Hl this this' Hlog Hrun; cbn in Hrun.
  - injection Hrun as <-. split; [apply R_refl | exact Hlog].
  - inversion Hl as [|? ? Ha Hrest]; subst.
    destruct (f a this) as [mid|] eqn:Hstep; [|discriminate].
    destruct (Hf a this mid Ha Hlog Hstep) as [HR1 Hlog1].
    destruct (IH Hrest mid this' Hlog1 Hrun) as [HR2 Hlog2].
    split; [eapply R_trans; eassumption | exact Hlog2].
Qed.

Lemma writeWrapped_preserve (fuel : nat) (t : string) (m : option Z)
                            (o : WriteOptions) (s : StrokeOptions)
                            (this this' : CanvasWriter) :
  okWrite o s -> logOk this -> writeWrapped fuel t m o s this = Some this' ->
  R this this' /\ logOk this'.
Proof using All.
  intros Hok Hlog Hrun. unfold writeWrapped in Hrun.
  destruct (Wrapped.lines _ _ fuel t) as [results|]; [|discriminate].
  injection Hrun as <-. unfold writeLines.
  destruct (writeTexts_preserve o s (toArray (OfArray results)) Hok
              (call (SetFont (JS.or_str (o_font o) "16px serif")) this)) as [HR Hlog'];
    [exact Hlog|].
  split; [|exact Hlog']. eapply R_trans; [apply R_call | exact HR].
Qed.

Lemma writeWordWrapped_preserve (fuel : nat) (t : string) (m : option Z)
                                (o : WriteOptions) (s : StrokeOptions)
                                (this this' : CanvasWriter) :
  okWrite o s -> logOk this -> writeWordWrapped fuel t m o s this = Some this' ->
  R this this' /\ logOk this'.
Proof using All.
  intros Hok Hlog Hrun. unfold writeWordWrapped in Hrun.
  destruct (WordWrapped.lines _ _ fuel t) as [results|]; [|discriminate].
  injection Hrun as <-. unfold writeLines.
  destruct (writeTexts_preserve o s (toArray (OfArray results)) Hok
              (call (SetFont (JS.or_str (o_font o) "16px serif")) this)) as [HR Hlog'];
    [exact Hlog|].
  split; [|exact Hlog']. eapply R_trans; [apply R_call | exact HR].
Qed.

Lemma step_preserve (fuel : nat) (op : Op) (this this' : CanvasWriter) :
  opOk op -> logOk this -> step fuel op this = Some this' ->
  R this this' /\ logOk this'.
Proof using All.
  intros Hop Hlog Hrun. destruct op; cbn [step okOp] in *.
  - injection Hrun as <-. split; [|exact Hlog].
    unfold drawBackground. repeat (eapply R_trans; [|apply R_call]). apply R_refl.
  - injection Hrun as <-. split; [|exact Hlog]. apply R_call.
  - injection Hrun as <-. split; [apply R_writeText, Hop | now apply okLog_writeText].
  - injection Hrun as <-. now apply writeTexts_preserve.
  - eapply writeWrapped_preserve; eassumption.
  - unfold writeWrappedLines in Hrun.
    eapply (forEach_preserve _ (fun _ => True)); [| |exact Hlog|exact Hrun].
    + intros a w w' _ Hw Hr.
      eapply writeWrapped_preserve; [exact Hop | exact Hw | exact Hr].
    + apply Forall_forall. auto.
  - eapply writeWordWrapped_preserve; eassumption.
  - unfold writeWordWrappedLines in Hrun.
    eapply (forEach_preserve _ (fun _ => True)); [| |exact Hlog|exact Hrun].
    + intros a w w' _ Hw Hr.
      eapply writeWordWrapped_preserve; [exact Hop | exact Hw | exact Hr].
    + apply Forall_forall. auto.
  - unfold write, writeWordWrappedLines in Hrun.
    eapply (forEach_preserve _ (fun _ => True)); [| |exact Hlog|exact Hrun].
    + intros a w w' _ Hw Hr.
      eapply writeWordWrapped_preserve; [exact Hop | exact Hw | exact Hr].
    + apply Forall_forall. auto.
  - injection Hrun as <-. now apply cloneFrom_preserve.
  - injection Hrun as <-. now apply cloneFrom_preserve.
Qed.

Lemma run_preserve (fuel : nat) (ops : list Op) (this this' : CanvasWriter) :
  Forall opOk ops -> logOk this -> run fuel ops this = Some this' ->
  R this this' /\ logOk this'.
Proof using All.
  intros Hops Hlog Hrun. unfold run in Hrun.
  eapply (forEach_preserve _ opOk); [| exact Hops | exact Hlog | exact Hrun].
  intros op w w' Hop Hw Hr. eapply step_preserve; eassumption.
Qed.

End Steps.

(** ** Methods on the heap *)

Section HeapFacts.
Context {surface : Surface}.

Lemma leavesOthers_refl (o : nat) (h : Heap) : leavesOthers o h h.
Proof. split; auto. Qed.

Lemma leavesOthers_trans (o : nat) (h1 h2 h3 : Heap) :
  leavesOthers o h1 h2 -> leavesOthers o h2 h3 -> leavesOthers o h1 h3.
Proof.
  intros [Hw1 Hc1] [Hw2 Hc2]. split.
  - intros o' Hne. now rewrite Hw2, Hw1.
  - intros c Hc. auto.
Qed.

Lemma touches_ret {A : Type} (o : nat) (a : A) : touchesOnly o (ret a).
Proof. intros h b h' E. injection E as _ <-. apply leavesOthers_refl. Qed.

Lemma touches_bind {A B : Type} (o : nat) (m : Run A) (k : A -> Run B) :
  touchesOnly o m -> (forall a, touchesOnly o (k a)) -> touchesOnly o (bind m k).
Proof.
  intros Hm Hk h b h' E. unfold bind in E.
  destruct (m h) as [[a hm]|] eqn:Em; [|discriminate].
  eapply leavesOthers_trans; [eapply Hm, Em | eapply Hk, E].
Qed.

Lemma touches_getLine (o : nat) : touchesOnly o (getLine o).
Proof.
  intros h a h' E. unfold getLine in E.
  destruct (writers h !! o); [|discriminate]. injection E as _ <-. apply leavesOthers_refl.
Qed.

Lemma touches_getTexts (o : nat) : touchesOnly o (getTexts o).
Proof.
  intros h a h' E. unfold getTexts in E.
  destruct (writers h !! o); [|discriminate]. injection E as _ <-. apply leavesOthers_refl.
Qed.

Lemma touches_getCtx (o : nat) : touchesOnly o (getCtx o).
Proof.
  intros h a h' E. unfold getCtx in E.
  destruct (writers h !! o) as [obj|]; [|discriminate].
  destruct (canvases h !! its_canvas obj); [|discriminate].
  injection E as _ <-. apply leavesOthers_refl.
Qed.

Lemma touches_setLine (o : nat) (v : Z) : touchesOnly o (setLine o v).
Proof.
  intros h a h' E. unfold setLine in E.
  destruct (writers h !! o) as [obj|]; [|discriminate]. injection E as _ <-.
  split; cbn [writers canvases]; [|auto].
  intros o' Hne. now rewrite lookup_insert_ne.
Qed.

Lemma touches_pushText (o : nat) (r : LineRecord) : touchesOnly o (pushText o r).
Proof.
  intros h a h' E. unfold pushText in E.
  destruct (writers h !! o) as [obj|]; [|discriminate]. injection E as _ <-.
  split; cbn [writers canvases]; [|auto].
  intros o' Hne. now rewrite lookup_insert_ne.
Qed.

Lemma touches_ctxCall (o : nat) (c : Call) : touchesOnly o (ctxCall o c).
Proof.
  intros h a h' E. unfold ctxCall in E.
  destruct (writers h !! o) as [obj|]; [|discriminate].
  destruct (canvases h !! its_canvas obj) as [cv|]; [|discriminate].
  injection E as _ <-.
  split; cbn [writers canvases]; [auto|].
  intros k Hk. destruct (decide (its_canvas obj = k)) as [->|Hd].
  - rewrite lookup_insert_eq. eauto.
  - now rewrite lookup_insert_ne.
Qed.

(** Every statement of [writeText] reads or writes [this]. *)
Lemma touches_writeTextAt (this : nat) (t : string) (o : WriteOptions)
                          (s : StrokeOptions) :
  touchesOnly this (writeTextAt this t o s).
Proof.
  unfold writeTextAt.
  repeat first
    [ apply touches_ret
    | apply touches_getLine
    | apply touches_getTexts
    | apply touches_getCtx
    | apply touches_setLine
    | apply touches_pushText
    | apply touches_ctxCall
    | apply touches_bind; [|intros ?]
    | match goal with |- touchesOnly _ (if ?b then _ else _) => destruct b end
    | progress cbv zeta ].
Qed.

Lemma touches_forEachAt {A : Type} (o : nat) (f : A -> Run unit) (a : list A) :
  (forall t, touchesOnly o (f t)) -> touchesOnly o (forEachAt f a).
Proof.
  intros Hf. induction a as [|t a IH]; cbn [forEachAt].
  - apply touches_ret.
  - apply touches_bind; [apply Hf | intros _; exact IH].
Qed.

(** *** The heap methods and the methods on writers agree *)

Lemma load_inv (h : Heap) (o : nat) (w : CanvasWriter) :
  load h o = Some w ->
  exists obj : WriterObject,
    writers h !! o = Some obj
    /\ canvases h !! its_canvas obj = Some (canvas w)
    /\ its_line obj = line w /\ its_texts obj = texts w.
Proof.
  unfold load. intros Hload.
  destruct (writers h !! o) as [obj|] eqn:Hobj; [|discriminate].
  destruct (canvases h !! its_canvas obj) as [c|] eqn:Hcv; [|discriminate].
  injection Hload as <-. exists obj. repeat split. exact Hcv.
Qed.

Lemma load_store (h : Heap) (o : nat) (w w' : CanvasWriter) :
  load h o = Some w -> load (store o w' h) o = Some w'.
Proof.
  intros Hload. destruct (load_inv h o w Hload) as (obj & Hobj & _).
  unfold load, store. rewrite Hobj. cbn [writers canvases].
  rewrite lookup_insert_eq. cbn [its_canvas its_line its_texts].
  rewrite lookup_insert_eq. now destruct w'.
Qed.

Lemma store_store (h : Heap) (o : nat) (w w1 w2 : CanvasWriter) :
  load h o = Some w -> store o w2 (store o w1 h) = store o w2 h.
Proof.
  intros Hload. destruct (load_inv h o w Hload) as (obj & Hobj & _).
  unfold store. rewrite Hobj. cbn [writers canvases].
  rewrite lookup_insert_eq. cbn [its_canvas].
  now rewrite !insert_insert_eq.
Qed.

Lemma store_load (h : Heap) (o : nat) (w : CanvasWriter) :
  load h o = Some w -> store o w h = h.
Proof.
  intros Hload. destruct (load_inv h o w Hload) as (obj & Hobj & Hcv & Hline & Htexts).
  unfold store. rewrite Hobj, <- Hline, <- Htexts.
  rewrite (insert_id (canvases h)) by exact Hcv.
  rewrite (insert_id (writers h)) by (now destruct obj).
  now destruct h.
Qed.

Lemma setLine_load (h : Heap) (o : nat) (W : CanvasWriter) (v : Z) :
  load h o = Some W ->
  setLine o v h = Some (tt, store o {| canvas := canvas W; line := v; texts := texts W |} h).
Proof.
  intros Hload. destruct (load_inv h o W Hload) as (obj & Hobj & Hcv & _ & Htexts).
  unfold setLine, store. rewrite Hobj. cbn [canvas line texts].
  rewrite (insert_id (canvases h)) by exact Hcv. now rewrite Htexts.
Qed.

Lemma pushText_load (h : Heap) (o : nat) (W : CanvasWriter) (r : LineRecord) :
  load h o = Some W -> pushText o r h = Some (tt, store o (push r W) h).
Proof.
  intros Hload. destruct (load_inv h o W Hload) as (obj & Hobj & Hcv & Hline & Htexts).
  unfold pushText, store. rewrite Hobj. cbn [push canvas line texts].
  rewrite (insert_id (canvases h)) by exact Hcv. now rewrite Hline, Htexts.
Qed.

Lemma ctxCall_load (h : Heap) (o : nat) (W : CanvasWriter) (c : Call) :
  load h o = Some W -> ctxCall o c h = Some (tt, store o (call c W) h).
Proof.
  intros Hload. destruct (load_inv h o W Hload) as (obj & Hobj & Hcv & Hline & Htexts).
  unfold ctxCall, store. rewrite Hobj, Hcv. cbn [call canvas line texts].
  rewrite (insert_id (writers h)); [reflexivity|].
  rewrite Hobj, <- Hline, <- Htexts. now destruct obj.
Qed.

Section At.
Variables (h0 : Heap) (o : nat) (w0 : CanvasWriter).
Hypothesis Hload : load h0 o = Some w0.

Lemma at_getLine {B : Type} (W : CanvasWriter) (k : Z -> Run B) :
  bind (getLine o) k (store o W h0) = k (line W) (store o W h0).
Proof using Hload.
  destruct (load_inv _ _ _ (load_store h0 o w0 W Hload)) as (obj & Hobj & _ & Hline & _).
  unfold bind, getLine. now rewrite Hobj, Hline.
Qed.

Lemma at_getTexts {B : Type} (W : CanvasWriter) (k : list LineRecord -> Run B) :
  bind (getTexts o) k (store o W h0) = k (texts W) (store o W h0).
Proof using Hload.
  destruct (load_inv _ _ _ (load_store h0 o w0 W Hload)) as (obj & Hobj & _ & _ & Htexts).
  unfold bind, getTexts. now rewrite Hobj, Htexts.
Qed.

Lemma at_getCtx {B : Type} (W : CanvasWriter) (k : Context2D -> Run B) :
  bind (getCtx o) k (store o W h0) = k (ctx (canvas W)) (store o W h0).
Proof using Hload.
  destruct (load_inv _ _ _ (load_store h0 o w0 W Hload)) as (obj & Hobj & Hcv & _).
  unfold bind, getCtx. now rewrite Hobj, Hcv.
Qed.

Lemma run_setLine (W : CanvasWriter) (v : Z) :
  setLine o v (store o W h0)
  = Some (tt, store o {| canvas := canvas W; line := v; texts := texts W |} h0).
Proof using Hload.
  rewrite (setLine_load _ _ W) by (eapply load_store; exact Hload).
  now rewrite (store_store h0 o w0 _ _ Hload).
Qed.

Lemma run_pushText (W : CanvasWriter) (r : LineRecord) :
  pushText o r (store o W h0) = Some (tt, store o (push r W) h0).
Proof using Hload.
  rewrite (pushText_load _ _ W) by (eapply load_store; exact Hload).
  now rewrite (store_store h0 o w0 _ _ Hload).
Qed.

Lemma run_ctxCall (W : CanvasWriter) (c : Call) :
  ctxCall o c (store o W h0) = Some (tt, store o (call c W) h0).
Proof using Hload.
  rewrite (ctxCall_load _ _ W) by (eapply load_store; exact Hload).
  now rewrite (store_store h0 o w0 _ _ Hload).
Qed.

Lemma at_setLine {B : Type} (W : CanvasWriter) (v : Z) (k : unit -> Run B) :
  bind (setLine o v) k (store o W h0)
  = k tt (store o {| canvas := canvas W; line := v; texts := texts W |} h0).
Proof using Hload. unfold bind. now rewrite run_setLine. Qed.

Lemma at_pushText {B : Type} (W : CanvasWriter) (r : LineRecord) (k : unit -> Run B) :
  bind (pushText o r) k (store o W h0) = k tt (store o (push r W) h0).
Proof using Hload. unfold bind. now rewrite run_pushText. Qed.

Lemma at_ctxCall {B : Type} (W : CanvasWriter) (c : Call) (k : unit -> Run B) :
  bind (ctxCall o c) k (store o W h0) = k tt (store o (call c W) h0).
Proof using Hload. unfold bind. now rewrite run_ctxCall. Qed.

(** [writeTextAt] on the cell of a writer does what [writeText] does on the
    writer. *)
Lemma writeTextAt_store (t : string) (op : WriteOptions) (s : StrokeOptions)
                        (W : CanvasWriter) :
  writeTextAt o t op s (store o W h0) = Some (tt, store o (writeText t op s W) h0).
Proof using Hload.
  unfold writeTextAt.
  rewrite at_ctxCall. cbv beta zeta. rewrite at_getTexts.
  change ((JS.or_num (o_maxLines op) 0 <=? Z.of_nat (List.length (texts (call Save W))))
          && (0 <? JS.or_num (o_maxLines op) 0))
    with (capped op W).
  destruct (capped op W) eqn:Hcap.
  { rewrite writeText_capped by exact Hcap. reflexivity. }
  rewrite at_getLine, !at_ctxCall, at_getCtx.
  destruct (strokeActive s) eqn:Hact.
  - rewrite at_getLine, at_pushText, !at_ctxCall, at_getLine, at_getCtx, run_setLine.
    do 3 f_equal.
    unfold writeText. rewrite capped_call, Hcap, Hact. reflexivity.
  - rewrite at_getLine, at_pushText, !at_ctxCall, at_getLine, at_setLine, run_ctxCall.
    do 3 f_equal.
    unfold writeText. rewrite capped_call, Hcap, Hact. reflexivity.
Qed.

Lemma forEachAt_store (l : list LineRecord) :
  forall W : CanvasWriter,
    forEachAt (fun t => writeTextAt o (text t) (options t) (strokeOptions t)) l
              (store o W h0)
    = Some (tt, store o (fold_left (fun this t =>
                                      writeText (text t) (options t) (strokeOptions t) this)
                                   l W) h0).
Proof using Hload.
  induction l as [|r l IH]; intros W; cbn [forEachAt fold_left]; [reflexivity|].
  unfold bind. rewrite writeTextAt_store. apply IH.
Qed.

End At.

(** [target.cloneFrom(source, limit)] on the heap puts in the cell of the
    target what [cloneFrom] makes of the two writers, also when the two are
    one object. *)
Lemma cloneFromAt_store (target source : nat) (limit : option Z) (h : Heap)
                        (src this : CanvasWriter) :
  load h source = Some src ->
  load h target = Some this ->
  cloneFromAt target source limit h = Some (store target (cloneFrom src limit this) h).
Proof.
  intros Hsrc Hthis. unfold cloneFromAt, cloneFromRun, bind.
  destruct (load_inv h source src Hsrc) as (obj & Hobj & _ & _ & Htexts).
  unfold getTexts. rewrite Hobj, Htexts.
  rewrite <- (store_load h target this Hthis) at 1.
  rewrite (forEachAt_store h target this Hthis). reflexivity.
Qed.

End HeapFacts.

(** ** Facts about the fixed-pitch surface *)

Section FixedPitchFacts.

Lemma replay_text_draw (h : Context2D) (c : Call) :
  isTextDraw c = true ->
  forall cur stack,
    FixedPitch.replay (h ++ [c]) cur stack = FixedPitch.replay h cur stack.
Proof.
  intros Hc. induction h as [|d h IH]; intros cur stack.
  - destruct c; try discriminate; reflexivity.
  - destruct d; cbn [app FixedPitch.replay]; try apply IH.
    + destruct stack; apply IH.
    + destruct v; apply IH.
Qed.

Lemma fixedPitch_draw_keeps_lineWidth (h : Context2D) (c : Call) :
  isTextDraw c = true ->
  @lineWidth FixedPitch.surface (h ++ [c]) = @lineWidth FixedPitch.surface h.
Proof. intros Hc. cbn. now rewrite replay_text_draw. Qed.

Lemma replay_lineWidth_pos (h : Context2D) :
  forall cur stack,
    0 < FixedPitch.a_lineWidth cur ->
    Forall (fun a => 0 < FixedPitch.a_lineWidth a) stack ->
    0 < FixedPitch.a_lineWidth (FixedPitch.replay h cur stack).
Proof.
  induction h as [|d h IH]; intros cur stack Hcur Hstack; [exact Hcur|].
  destruct d; cbn [FixedPitch.replay]; try (apply IH; assumption).
  - apply IH; [assumption | constructor; assumption].
  - destruct stack as [|a stack]; [apply IH; assumption|].
    inversion Hstack; subst. apply IH; assumption.
  - apply IH; [|assumption]. destruct (FixedPitch.validAlign v); assumption.
  - destruct v as [v|]; [|apply IH; assumption].
    apply IH; [|assumption].
    destruct (Z.ltb_spec 0 v); [cbn; assumption | assumption].
Qed.

Lemma fixedPitch_lineWidth_nonneg (h : Context2D) :
  0 <= @lineWidth FixedPitch.surface h.
Proof.
  apply Z.lt_le_incl. cbn. apply replay_lineWidth_pos; [cbn; lia | constructor].
Qed.

End FixedPitchFacts.

(** * The claims of the specification *)

(** ** C1: termination of the hard wrap *)

(** C1.  On the fixed-pitch surface the one-character text ["W"] measures
    10, which is wider than a maximum width of 5.  [writeWrapped] never
    returns on it: whatever the depth allowed to the recursion of
    [reduceToFit], the call is still running.  The loop leaves [j] at [1],
    so the remainder [text.slice(-j + 1)] is the text itself. *)
Theorem hard_wrap_wide_last_char_never_returns :
  forall fuel : nat,
    @writeWrapped FixedPitch.surface fuel "W" (Some 5) noOptions noStroke
                  (new FixedPitch.blank) = None.
Proof.
  intros fuel. unfold writeWrapped, Wrapped.lines.
  rewrite reduceToFit_wide_char; [reflexivity | cbn; lia | cbn; lia].
Qed.

(** ** C2: a text that fits is one line *)

(** C2, as stated, fails on the empty text: its width 0 is less than 100,
    the hard wrap emits the one line [""], and the word wrap emits no line
    at all, whatever the depth allowed. *)
Lemma empty_text_word_wrap_emits_no_line :
  fixedWidth "" < 100
  /\ Wrapped.lines fixedWidth 100 1 "" = Some [""]
  /\ WordWrapped.lines fixedWidth 100 1 "" = Some []
  /\ (forall fuel : nat, WordWrapped.lines fixedWidth 100 fuel "" <> Some [""]).
Proof.
  repeat split; try reflexivity.
  intros [|fuel]; discriminate.
Qed.

(** C2, amended.  For every non-empty text whose measured width is less
    than [maxWidth], the hard-wrap split and the word-wrap split each
    produce exactly one line, the text itself; [writeWrapped] and
    [writeWordWrapped] then write that single line. *)
Theorem fitting_text_is_one_line `{Surface}
    (fuel : nat) (text : string) (maxWidth : Z)
    (o : WriteOptions) (s : StrokeOptions) (this : CanvasWriter) :
  let this1 := call (SetFont (JS.or_str (o_font o) "16px serif")) this in
  let measureWidth := fun t => width (measureText (ctx (canvas this1)) t) in
  text <> "" ->
  measureWidth text < maxWidth ->
  Wrapped.lines measureWidth maxWidth (S fuel) text = Some [text]
  /\ WordWrapped.lines measureWidth maxWidth (S fuel) text = Some [text]
  /\ writeWrapped (S fuel) text (Some maxWidth) o s this
     = Some (writeText text o s this1)
  /\ writeWordWrapped (S fuel) text (Some maxWidth) o s this
     = Some (writeText text o s this1).
Proof.
  intros this1 measureWidth Hne Hfit.
  assert (Hhard : Wrapped.lines measureWidth maxWidth (S fuel) text = Some [text])
    by (apply hard_fits; lia).
  assert (Hword : WordWrapped.lines measureWidth maxWidth (S fuel) text = Some [text])
    by (apply word_fits; [exact Hne | lia]).
  repeat split; try assumption.
  - unfold writeWrapped, widthOr. fold this1. fold measureWidth. rewrite Hhard. reflexivity.
  - unfold writeWordWrapped, widthOr. fold this1. fold measureWidth. rewrite Hword.
    reflexivity.
Qed.

Lemma fitting_text_is_one_line_witness :
  Wrapped.lines fixedWidth 80 1 "Hello" = Some ["Hello"]
  /\ WordWrapped.lines fixedWidth 80 1 "Hello" = Some ["Hello"]
  /\ @writeWrapped FixedPitch.surface 1 "Hello" (Some 80) noOptions noStroke
                   (new FixedPitch.blank)
     = Some (@writeText FixedPitch.surface "Hello" noOptions noStroke
                        (call (SetFont "16px serif") (new FixedPitch.blank)))
  /\ @writeWordWrapped FixedPitch.surface 1 "Hello" (Some 80) noOptions noStroke
                       (new FixedPitch.blank)
     = Some (@writeText FixedPitch.surface "Hello" noOptions noStroke
                        (call (SetFont "16px serif") (new FixedPitch.blank))).
Proof.
  apply (@fitting_text_is_one_line FixedPitch.surface 0 "Hello" 80 noOptions noStroke
           (new FixedPitch.blank)).
  - discriminate.
  - vm_compute. reflexivity.
Defined.

(** ** C3: the word wrap keeps words whole *)

(** C3, as stated, fails in two ways.  The words of the code are what
    [text.split(' ')] gives, so a tabulation does not end a word: in
    ["ab<TAB>cd"] with a maximal width of 40 both [ab] and [cd] fit, and
    yet [cd] is cut, its [c] ending the first line and its [d] starting the
    second.  And when the last word of a text has been cut, the last line
    carries a space after its last piece: ["abcdefg"] at 30 ends in the
    line ["g "], which is not a space-join of words or pieces of words. *)
Lemma word_wrap_cuts_a_fitting_word_after_a_tab :
  fixedWidth "ab" <= 40
  /\ fixedWidth "cd" <= 40
  /\ WordWrapped.lines fixedWidth 40 100 ("ab" +:+ String tab "cd")
     = Some ["ab" +:+ String tab "c"; "d "]
  /\ WordWrapped.lines fixedWidth 30 100 "abcdefg" = Some ["abc"; "def"; "g "].
Proof. vm_compute. repeat split; discriminate. Qed.

(** The relation [Cut] tells a cut of a word that fits: with a maximal
    width of 30, the word [bc] of ["abcdefg bc"] may not come out as [b]
    and [c], although both are runs of the too wide [abcdefg]. *)
Example Cut_tells_a_cut_of_a_fitting_word :
  ~ Cut fixedWidth 30 ["abcdefg"; "bc"] ["abc"; "def"; "g"; "b"; "c"].
Proof.
  intros H. inversion H as [| |w ws ps ts Hwide Hcat Hps Hrest Heq1 Heq2].
  subst w ws. clear H Hps Hwide Hcat.
  inversion Hrest as [|w' ws' ts0 Hr0|w' ws' ps' ts' Hwide' Hc' Hp' Hr'].
  - inversion Hr0. subst.
    repeat (destruct ps as [|? ps]; cbn in Heq2; [discriminate|];
            injection Heq2 as _ Heq2).
    destruct ps; discriminate.
  - vm_compute in Hwide'. discriminate.
Qed.

(** C3, amended.  Take as words of a text the runs of characters between
    its spaces, as [text.split(' ')] gives them, and as tokens of the lines
    the runs between the spaces of each line, empty words and empty tokens
    left aside.  Given enough depth (twice the length of the text, plus
    one), the word-wrap split returns, and the tokens of its lines, in
    order, are the words of the text, in order, each either whole or cut
    into non-empty pieces that put end to end give the word back; a word is
    cut only when it alone measures more than [maxWidth]. *)
Theorem word_wrap_cuts_only_wide_words
    (measureWidth : string -> Z) (maxWidth : Z) (text : string) (fuel : nat) :
  (2 * String.length text < fuel)%nat ->
  exists out : list string,
    WordWrapped.lines measureWidth maxWidth fuel text = Some out
    /\ Cut measureWidth maxWidth (nonEmpty (JS.split sp text)) (tokens out).
Proof.
  intros Hfuel. unfold WordWrapped.lines.
  destruct (splitToFit_returns measureWidth maxWidth fuel text []) as [out Hout].
  { unfold weight. pose proof (letters_le text). lia. }
  exists out. split; [exact Hout|].
  destruct (splitToFit_cut measureWidth maxWidth fuel text [] out Hout)
    as (ts & Htok & Hcut).
  rewrite Htok. exact Hcut.
Qed.

Lemma word_wrap_cuts_only_wide_words_witness :
  exists out : list string,
    WordWrapped.lines fixedWidth 60 100 "hello wor ld abcdefghijklmn x" = Some out
    /\ Cut fixedWidth 60 (nonEmpty (JS.split sp "hello wor ld abcdefghijklmn x"))
           (tokens out).
Proof.
  apply (word_wrap_cuts_only_wide_words fixedWidth 60 "hello wor ld abcdefghijklmn x" 100).
  vm_compute. lia.
Defined.

(** ** C4: the line cap *)

(** C4.  With a positive [maxLines] of [K] and a log that already holds [K]
    lines or more, [writeText] changes neither the log nor the cursor, and
    the only call it makes on the context is [save]: nothing is drawn. *)
Theorem maxLines_reached_is_noop `{Surface}
    (K : Z) (t : string) (o : WriteOptions) (s : StrokeOptions) (this : CanvasWriter) :
  0 < K ->
  o_maxLines o = Some K ->
  K <= lineCount this ->
  let this' := writeText t o s this in
  lineCount this' = lineCount this
  /\ texts this' = texts this
  /\ line this' = line this
  /\ ctx (canvas this') = ctx (canvas this) ++ [Save]
  /\ List.filter isDraw (ctx (canvas this')) = List.filter isDraw (ctx (canvas this)).
Proof.
  intros HK Hmax Hcount this'.
  assert (Hcap : capped o this = true).
  { unfold capped. rewrite Hmax. cbn [JS.or_num].
    destruct (Z.eqb_spec K 0); [lia|].
    apply andb_true_iff. split; [apply Z.leb_le | apply Z.ltb_lt]; assumption. }
  subst this'. rewrite writeText_capped by exact Hcap.
  repeat split. cbn [call canvas ctx]. rewrite List.filter_app. cbn. apply app_nil_r.
Qed.

Lemma maxLines_reached_is_noop_witness :
  let o := {| o_x := None; o_y := None; o_spacing := None; o_font := None;
              o_style := None; o_align := None; o_maxLines := Some 1;
              o_shadowColor := None; o_shadowX := None; o_shadowY := None;
              o_shadowBlur := None |} in
  let this := @writeText FixedPitch.surface "one" o noStroke (new FixedPitch.blank) in
  let this' := @writeText FixedPitch.surface "two" o noStroke this in
  lineCount this' = lineCount this
  /\ texts this' = texts this
  /\ line this' = line this
  /\ ctx (canvas this') = ctx (canvas this) ++ [Save]
  /\ List.filter isDraw (ctx (canvas this')) = List.filter isDraw (ctx (canvas this)).
Proof.
  intros o this.
  apply (@maxLines_reached_is_noop FixedPitch.surface 1 "two" o noStroke this).
  - lia.
  - reflexivity.
  - vm_compute. discriminate.
Defined.

(** ** C5: the cursor *)

(** C5, as stated, fails for a negative [spacing]: after a first line the
    cursor is at 16, and a second line written with a spacing of -100
    brings it down to -68. *)
Lemma negative_spacing_lowers_cursor :
  let first := @writeText FixedPitch.surface "a" noOptions noStroke (new FixedPitch.blank) in
  let second := @writeText FixedPitch.surface "b" (withSpacing (-100)) noStroke first in
  line first = 16 /\ line second = -68 /\ line second < line first.
Proof. vm_compute. repeat split; reflexivity. Qed.

(** C5, amended.  The cursor of a new writer is zero, and no sequence of
    methods decreases it, provided the surface reports line heights
    (ascent plus em descent) and line widths that are not negative and
    every line is written with a [spacing] that is not negative (for
    [cloneFrom], the spacing of the replayed records). *)
Theorem cursor_never_decreases `{Surface}
    (c : Canvas) (fuel : nat) (before after : list Op) (mid final : CanvasWriter) :
  (forall h t, 0 <= actualBoundingBoxAscent (measureText h t)
                    + emHeightDescent (measureText h t)) ->
  (forall h, 0 <= lineWidth h) ->
  Forall (okOp spacingNonNeg) (before ++ after) ->
  run fuel before (new c) = Some mid ->
  run fuel after mid = Some final ->
  line (new c) = 0 /\ 0 <= line mid /\ line mid <= line final.
Proof.
  intros Hheight Hwidth Hops Hbefore Hafter.
  apply Forall_app in Hops as [Hops1 Hops2].
  assert (Hwrite : forall t o s this,
             spacingNonNeg o s -> line this <= line (writeText t o s this)).
  { intros t o s this Hsp.
    assert (Hspacing : 0 <= spacingOf o this).
    { unfold spacingOf. destruct (line this =? 0); [lia | exact Hsp]. }
    destruct (capped o this) eqn:Hcap.
    - rewrite writeText_capped by exact Hcap. cbn. lia.
    - destruct (strokeActive s) eqn:Hact.
      + rewrite writeText_stroke by assumption. cbn [line].
        specialize (Hheight (measuring o s this) t).
        match goal with |- context [lineWidth ?h] => specialize (Hwidth h) end.
        lia.
      + rewrite writeText_fill by assumption. cbn [line].
        specialize (Hheight (measuring o s this) t). lia. }
  assert (Hrun : forall ops a b,
             Forall (okOp spacingNonNeg) ops -> okLog spacingNonNeg a ->
             run fuel ops a = Some b -> line a <= line b /\ okLog spacingNonNeg b).
  { intros ops a b Ho Ha Hr.
    apply (run_preserve (fun a b => line a <= line b) spacingNonNeg) with fuel ops;
      try assumption.
    - intros; lia.
    - intros; lia.
    - intros; cbn; lia. }
  destruct (Hrun before (new c) mid Hops1) as [H1 Hlog]; [constructor | exact Hbefore |].
  destruct (Hrun after mid final Hops2 Hlog Hafter) as [H2 _].
  cbn in H1. repeat split; [exact H1 | exact H2].
Qed.

Lemma cursor_never_decreases_witness :
  let before := [WriteText "a" noOptions noStroke] in
  let after := [Write (OfString "Hello world") (Some 80) (withSpacing 3) noStroke] in
  exists mid final : CanvasWriter,
    @run FixedPitch.surface 100 before (new FixedPitch.blank) = Some mid
    /\ @run FixedPitch.surface 100 after mid = Some final
    /\ line (new FixedPitch.blank) = 0 /\ 0 <= line mid /\ line mid <= line final.
Proof.
  intros before after.
  destruct (@run FixedPitch.surface 100 before (new FixedPitch.blank)) as [mid|] eqn:Hmid;
    [|vm_compute in Hmid; discriminate].
  destruct (@run FixedPitch.surface 100 after mid) as [final|] eqn:Hfinal.
  - exists mid, final. split; [reflexivity|]. split; [exact Hfinal|].
    apply (@cursor_never_decreases FixedPitch.surface FixedPitch.blank 100
             before after mid final).
    + intros h t. cbn. lia.
    + apply fixedPitch_lineWidth_nonneg.
    + repeat constructor; vm_compute; discriminate.
    + exact Hmid.
    + exact Hfinal.
  - vm_compute in Hmid. injection Hmid as <-. vm_compute in Hfinal. discriminate.
Defined.

(** ** C6: a line with a stroke *)

(** C6, as stated, fails when the stroke option that is present is falsy:
    with [{width: 0}] and nothing else, the test of [writeText] takes the
    branch without stroke, and only [fillText] is called. *)
Lemma zero_stroke_width_draws_no_stroke :
  let this' := @writeText FixedPitch.surface "ab" noOptions (strokeWidthOnly 0)
                          (new FixedPitch.blank) in
  s_width (strokeWidthOnly 0) = Some 0
  /\ List.filter isTextDraw (ctx (canvas this')) = [FillText "ab" 6 17]
  /\ line this' = 16.
Proof. vm_compute. repeat split; reflexivity. Qed.

(** C6, amended.  Whenever one of the three stroke options is truthy (a
    non-empty [style] or [join], a non-zero [width]) and the write is not
    stopped by [maxLines], [writeText] computes
    x = offsetX + (0 if the context's [textAlign] is ['center'], else
    leftBearing + lineWidth) and
    y = cursor + ascent + lineWidth + spacing + offsetY,
    where lineWidth is the context's line width after
    [strokeOptions.width] has been assigned to it and spacing is zero on a
    writer whose cursor is zero; it records the line at (x, y), calls
    [strokeText] and then [fillText] at (x, y), and advances the cursor by
    ascent + descent + lineWidth + spacing.  The surface is one on which
    drawing text leaves the line width as it is. *)
Theorem stroke_layout `{Surface}
    (t : string) (o : WriteOptions) (s : StrokeOptions) (this : CanvasWriter) :
  (forall h c, isTextDraw c = true -> lineWidth (h ++ [c]) = lineWidth h) ->
  strokeActive s = true ->
  capped o this = false ->
  let h := measuring o s this in
  let m := measureText h t in
  let x := JS.or_num (o_x o) 5
           + (if String.eqb (textAlign h) "center" then 0
              else actualBoundingBoxLeft m + lineWidth h) in
  let y := line this + actualBoundingBoxAscent m + lineWidth h
           + spacingOf o this + JS.or_num (o_y o) 5 in
  let this' := writeText t o s this in
  ctx (canvas this') = h ++ [StrokeText t x y; FillText t x y]
  /\ texts this' = texts this ++ [{| text := t; xSpace := x; ySpace := y;
                                     options := o; strokeOptions := s |}]
  /\ line this' = line this + (actualBoundingBoxAscent m + emHeightDescent m
                               + lineWidth h + spacingOf o this).
Proof.
  intros Hdraw Hact Hcap h m x y this'.
  subst this'. rewrite writeText_stroke by assumption. fold h. fold m.
  assert (Hx : (if String.eqb (textAlign h) "center" then 0
                else actualBoundingBoxLeft m + lineWidth h) + JS.or_num (o_x o) 5 = x)
    by (subst x; lia).
  rewrite Hx. fold y. cbn [canvas ctx texts line].
  repeat split.
  change (h ++ [StrokeText t x y; FillText t x y])
    with (h ++ [StrokeText t x y] ++ [FillText t x y]).
  rewrite app_assoc, !Hdraw by reflexivity. reflexivity.
Qed.

Lemma stroke_layout_witness :
  let s := {| s_style := Some "red"; s_width := Some 2; s_join := None |} in
  let this := new FixedPitch.blank in
  let this' := @writeText FixedPitch.surface "ab" noOptions s this in
  ctx (canvas this')
  = measuring noOptions s this
    ++ [StrokeText "ab" 8 19; FillText "ab" 8 19]
  /\ texts this' = texts this ++ [{| text := "ab"; xSpace := 8; ySpace := 19;
                                     options := noOptions; strokeOptions := s |}]
  /\ line this' = 18.
Proof.
  intros s this.
  apply (@stroke_layout FixedPitch.surface "ab" noOptions s this).
  - apply fixedPitch_draw_keeps_lineWidth.
  - reflexivity.
  - reflexivity.
Defined.

(** ** C7: [toString] *)

(** C7.  At every point reached from a new writer, [toString()] is the
    newline-join of the texts of the log; and whatever is called next only
    appends to the log, so that the later [toString()] joins the earlier
    texts followed by those of the lines written since. *)
Theorem toString_joins_log_in_order `{Surface}
    (c : Canvas) (fuel : nat) (before after : list Op) (mid final : CanvasWriter) :
  run fuel before (new c) = Some mid ->
  run fuel after mid = Some final ->
  toString mid = JS.join (String nl EmptyString) (List.map text (texts mid))
  /\ exists added : list LineRecord,
      texts final = texts mid ++ added
      /\ toString final
         = JS.join (String nl EmptyString)
                   (List.map text (texts mid) ++ List.map text added).
Proof.
  intros _ Hafter. split; [reflexivity|].
  assert (Hany : forall op, okOp (fun _ _ => True) op).
  { intros op. destruct op; cbn; auto. apply List.Forall_forall. auto. }
  destruct (run_preserve (fun a b => exists added, texts b = texts a ++ added)
              (fun _ _ => True)) with fuel after mid final as [[added Hadded] _].
  - intros this. exists []. now rewrite app_nil_r.
  - intros a b d [x Hx] [y Hy]. exists (x ++ y). now rewrite Hy, Hx, app_assoc.
  - intros d this. exists []. cbn. now rewrite app_nil_r.
  - intros t o s this _.
    destruct (writeText_log t o s this) as [-> | (x & y & ->)].
    + exists []. now rewrite app_nil_r.
    + eexists. reflexivity.
  - apply List.Forall_forall. auto.
  - apply List.Forall_forall. auto.
  - exact Hafter.
  - exists added. split; [exact Hadded|].
    unfold toString. now rewrite Hadded, List.map_app.
Qed.

Lemma toString_joins_log_in_order_witness :
  let before := [WriteText "one" noOptions noStroke] in
  let after := [WriteLines (OfArray ["two"; "three"]) noOptions noStroke] in
  let mid := @writeText FixedPitch.surface "one" noOptions noStroke (new FixedPitch.blank) in
  let final := @writeLines FixedPitch.surface (OfArray ["two"; "three"]) noOptions noStroke
                           mid in
  toString mid = JS.join (String nl EmptyString) (List.map text (texts mid))
  /\ exists added : list LineRecord,
      texts final = texts mid ++ added
      /\ toString final
         = JS.join (String nl EmptyString)
                   (List.map text (texts mid) ++ List.map text added).
Proof.
  intros before after mid final.
  apply (@toString_joins_log_in_order FixedPitch.surface FixedPitch.blank 1
           before after mid final); reflexivity.
Defined.

(** ** C8: cloning two lines *)

Lemma writeText_appends `{Surface} (t : string) (o : WriteOptions) (s : StrokeOptions)
                        (this : CanvasWriter) :
  capped o this = false ->
  texts (writeText t o s this) = texts this ++ [placed t o s this].
Proof.
  intros Hcap. unfold placed. destruct (strokeActive s) eqn:Hact.
  - rewrite writeText_stroke by assumption. reflexivity.
  - rewrite writeText_fill by assumption. cbn [texts]. do 3 f_equal.
    + destruct (String.eqb _ _); lia.
    + lia.
Qed.

(** C8, as stated, fails when the source holds fewer than two lines: from
    a source with one line, a limit of 2 appends one record. *)
Lemma clone_two_from_one_line_source :
  let source := @writeText FixedPitch.surface "only" noOptions noStroke
                           (new FixedPitch.blank) in
  let this := new FixedPitch.blank in
  List.length (texts source) = 1%nat
  /\ List.length (texts (@cloneFrom FixedPitch.surface source (Some 2) this))
     = (List.length (texts this) + 1)%nat.
Proof. vm_compute. split; reflexivity. Qed.

(** C8, amended.  From a source whose log holds at least two records,
    whatever follows them, [cloneFrom] with limit 2 is [writeText] on the
    first record's text and options followed by [writeText] on the
    second's; when neither write is stopped by [maxLines], it appends
    exactly two records, the first measured on the destination's context
    and placed from the destination's cursor, the second from the cursor
    the first write left. *)
Theorem cloneFrom_two_lines `{Surface}
    (source this : CanvasWriter) (r1 r2 : LineRecord) (rest : list LineRecord) :
  texts source = r1 :: r2 :: rest ->
  let first := writeText (text r1) (options r1) (strokeOptions r1) this in
  capped (options r1) this = false ->
  capped (options r2) first = false ->
  let this' := cloneFrom source (Some 2) this in
  this' = writeText (text r2) (options r2) (strokeOptions r2) first
  /\ texts this'
     = texts this ++ [placed (text r1) (options r1) (strokeOptions r1) this;
                      placed (text r2) (options r2) (strokeOptions r2) first]
  /\ List.length (texts this') = (List.length (texts this) + 2)%nat.
Proof.
  intros Hsrc first Hcap1 Hcap2 this'.
  assert (Heq : this' = writeText (text r2) (options r2) (strokeOptions r2) first).
  { subst this'. unfold cloneFrom, JS.arr_slice, JS.relIndex. rewrite Hsrc.
    cbn [List.length Z.ltb Z.compare].
    rewrite Z.min_l by lia. rewrite Z.min_l by lia. reflexivity. }
  assert (Htexts : texts this'
                   = texts this ++ [placed (text r1) (options r1) (strokeOptions r1) this;
                                    placed (text r2) (options r2) (strokeOptions r2) first]).
  { rewrite Heq, writeText_appends by exact Hcap2.
    subst first. rewrite writeText_appends by exact Hcap1.
    now rewrite <- app_assoc. }
  repeat split; [exact Heq | exact Htexts |].
  rewrite Htexts, length_app. reflexivity.
Qed.

Lemma cloneFrom_two_lines_witness :
  let source := @writeLines FixedPitch.surface (OfArray ["one"; "two"; "three"])
                            noOptions noStroke (new FixedPitch.blank) in
  let this := @writeText FixedPitch.surface "top" noOptions noStroke
                         (new FixedPitch.blank) in
  let first := @writeText FixedPitch.surface "one" noOptions noStroke this in
  let this' := @cloneFrom FixedPitch.surface source (Some 2) this in
  this' = @writeText FixedPitch.surface "two" noOptions noStroke first
  /\ texts this'
     = texts this ++ [@placed FixedPitch.surface "one" noOptions noStroke this;
                      @placed FixedPitch.surface "two" noOptions noStroke first]
  /\ List.length (texts this') = (List.length (texts this) + 2)%nat.
Proof.
  intros source this first this'.
  assert (Hsrc : exists r1 r2 rest, texts source = r1 :: r2 :: rest
                   /\ text r1 = "one" /\ options r1 = noOptions /\ strokeOptions r1 = noStroke
                   /\ text r2 = "two" /\ options r2 = noOptions /\ strokeOptions r2 = noStroke).
  { vm_compute. do 3 eexists. split; [reflexivity|]. repeat split. }
  destruct Hsrc as (r1 & r2 & rest & Hsrc & Ht1 & Ho1 & Hs1 & Ht2 & Ho2 & Hs2).
  pose proof (@cloneFrom_two_lines FixedPitch.surface source this r1 r2 rest Hsrc) as Hthm.
  rewrite Ht1, Ho1, Hs1, Ht2, Ho2, Hs2 in Hthm.
  apply Hthm; reflexivity.
Defined.

(** ** C9: the background methods *)

(** C9.  [drawBackground] and [drawBackgroundImage] leave the cursor and
    the log as they are, whatever the style or the image: they only call
    the context. *)
Theorem background_leaves_cursor_and_log
    (style buffer : string) (this : CanvasWriter) :
  line (drawBackground style this) = line this
  /\ texts (drawBackground style this) = texts this
  /\ line (drawBackgroundImage buffer this) = line this
  /\ texts (drawBackgroundImage buffer this) = texts this
  /\ ctx (canvas (drawBackground style this))
     = ctx (canvas this)
       ++ [Save; SetFillStyle style;
           FillRect 0 0 (canvasWidth (canvas this)) (canvasHeight (canvas this));
           Restore]
  /\ ctx (canvas (drawBackgroundImage buffer this))
     = ctx (canvas this)
       ++ [DrawImage buffer 0 0 (canvasWidth (canvas this)) (canvasHeight (canvas this))].
Proof.
  repeat split. unfold drawBackground, call. cbn. now rewrite <- !app_assoc.
Qed.

(** ** C10: the source of a clone *)

(** C10, as stated, fails when the source is the destination itself:
    [w.cloneFrom(w)] on a writer that holds one line leaves it with two
    lines and a cursor at 32 instead of 16. *)
Lemma cloning_a_writer_into_itself_changes_it :
  exists (h' : Heap) (w w' : CanvasWriter),
    @cloneFromAt FixedPitch.surface 0%nat 0%nat None oneWriter = Some h'
    /\ load oneWriter 0%nat = Some w
    /\ load h' 0%nat = Some w'
    /\ List.length (texts w) = 1%nat /\ List.length (texts w') = 2%nat
    /\ line w = 16 /\ line w' = 32.
Proof.
  destruct (@cloneFromAt FixedPitch.surface 0%nat 0%nat None oneWriter) as [h'|] eqn:E;
    [|vm_compute in E; discriminate].
  vm_compute in E. injection E as <-.
  do 3 eexists. split; [reflexivity|].
  split; [vm_compute; reflexivity|].
  split; [vm_compute; reflexivity|].
  repeat split.
Qed.

(** C10, amended.  [cloneFrom] on a destination that is another object
    than the source leaves the source as it was, for every limit: its cell
    of the heap is unchanged, log and cursor with it.  Every statement of
    [cloneFrom] and of the [writeText] it calls writes through [this]; the
    source is only read. *)
Theorem cloneFrom_leaves_other_source `{Surface}
    (target source : nat) (limit : option Z) (h h' : Heap) :
  target <> source ->
  cloneFromAt target source limit h = Some h' ->
  is_Some (writers h !! source)
  /\ writers h' !! source = writers h !! source
  /\ forall w : CanvasWriter,
      load h source = Some w ->
      exists w' : CanvasWriter,
        load h' source = Some w' /\ line w' = line w /\ texts w' = texts w.
Proof.
  intros Hne Hrun. unfold cloneFromAt in Hrun.
  destruct (cloneFromRun target source limit h) as [[u hf]|] eqn:E; [|discriminate].
  injection Hrun as ->.
  unfold cloneFromRun, bind in E.
  destruct (getTexts source h) as [[sourceTexts h1]|] eqn:Eread; [|discriminate].
  assert (Hsrc : is_Some (writers h !! source) /\ h1 = h).
  { unfold getTexts in Eread. destruct (writers h !! source); [|discriminate].
    injection Eread as _ <-. eauto. }
  destruct Hsrc as [Hsome ->].
  assert (Hframe : leavesOthers target h h').
  { eapply touches_forEachAt; [|exact E]. intros t. apply touches_writeTextAt. }
  destruct Hframe as [Hw Hc].
  assert (Hsame : writers h' !! source = writers h !! source) by (apply Hw; auto).
  repeat split; [exact Hsome | exact Hsame |].
  intros w Hload. unfold load in *. rewrite Hsame.
  destruct (writers h !! source) as [obj|]; [|discriminate].
  destruct (canvases h !! its_canvas obj) as [c|] eqn:Hcv; [|discriminate].
  destruct (Hc (its_canvas obj)) as [c' Hc']; [rewrite Hcv; eauto|].
  rewrite Hc'. injection Hload as <-. eexists. repeat split.
Qed.

Lemma cloneFrom_leaves_other_source_witness :
  let w := @writeText FixedPitch.surface "a" noOptions noStroke (new FixedPitch.blank) in
  let h := {| canvases := {[ 0%nat := canvas w; 1%nat := FixedPitch.blank ]};
              writers := {[ 0%nat := {| its_canvas := 0%nat; its_line := line w;
                                        its_texts := texts w |};
                            1%nat := {| its_canvas := 1%nat; its_line := 0;
                                        its_texts := [] |} ]} |} in
  exists h' : Heap,
    @cloneFromAt FixedPitch.surface 1%nat 0%nat (Some 5) h = Some h'
    /\ is_Some (writers h !! 0%nat)
    /\ writers h' !! 0%nat = writers h !! 0%nat
    /\ forall w0 : CanvasWriter,
        load h 0%nat = Some w0 ->
        exists w0' : CanvasWriter,
          load h' 0%nat = Some w0' /\ line w0' = line w0 /\ texts w0' = texts w0.
Proof.
  intros w h.
  destruct (@cloneFromAt FixedPitch.surface 1%nat 0%nat (Some 5) h) as [h'|] eqn:E;
    [|vm_compute in E; discriminate].
  exists h'. split; [reflexivity|].
  apply (@cloneFrom_leaves_other_source FixedPitch.surface 1%nat 0%nat (Some 5) h h').
  - discriminate.
  - exact E.
Defined.

(** * Further properties of the code *)

(** ** [writeText] *)

Section WriteTextMore.
Context {surface : Surface}.

Lemma saveDepth_app (a b : Context2D) : saveDepth (a ++ b) = saveDepth a + saveDepth b.
Proof.
  induction a as [|c a IH]; [reflexivity|].
  destruct c; cbn [app saveDepth]; rewrite IH; lia.
Qed.

Lemma ctx_call (c : Call) (this : CanvasWriter) :
  ctx (canvas (call c this)) = ctx (canvas this) ++ [c].
Proof. reflexivity. Qed.

(** The calls [writeText] makes before it measures. *)
Lemma measuring_calls (o : WriteOptions) (s : StrokeOptions) (this : CanvasWriter) :
  measuring o s this
  = ctx (canvas this)
    ++ [Save;
        SetFont (JS.or_str (o_font o) "16px serif");
        SetFillStyle (JS.or_str (o_style o) "white");
        SetTextAlign (JS.or_str (o_align o) "start");
        SetShadowColor (o_shadowColor o);
        SetShadowOffsetX (JS.or_num (o_shadowX o) 0);
        SetShadowOffsetY (JS.or_num (o_shadowY o) 0);
        SetShadowBlur (JS.or_num (o_shadowBlur o) 0);
        SetStrokeStyle (s_style s);
        SetLineWidth (s_width s);
        SetLineJoin (s_join s)].
Proof.
  unfold measuring, configure. cbv zeta. rewrite !ctx_call, <- !app_assoc. reflexivity.
Qed.

Lemma measuring_depth (o : WriteOptions) (s : StrokeOptions) (this : CanvasWriter) :
  saveDepth (measuring o s this) = saveDepth (ctx (canvas this)) + 1.
Proof.
  rewrite measuring_calls, saveDepth_app. cbn [saveDepth]. lia.
Qed.

Lemma capped_sameDefaults (o o' : WriteOptions) (this : CanvasWriter) :
  sameDefaults o o' -> capped o this = capped o' this.
Proof.
  intros (_ & _ & _ & _ & _ & Hmax & _). unfold capped. now rewrite Hmax.
Qed.

Lemma measuring_sameDefaults (o o' : WriteOptions) (s : StrokeOptions)
                             (this : CanvasWriter) :
  sameDefaults o o' -> measuring o s this = measuring o' s this.
Proof.
  intros (_ & _ & Hf & Hs & Ha & _ & Hc & Hsx & Hsy & Hsb).
  rewrite !measuring_calls. now rewrite Hf, Hs, Ha, Hc, Hsx, Hsy, Hsb.
Qed.

(** [writeText] depends on its options only through the values [||]
    gives them and through the effective spacing. *)
Lemma writeText_same_layout (t : string) (o o' : WriteOptions) (s : StrokeOptions)
                            (this : CanvasWriter) :
  sameDefaults o o' ->
  spacingOf o this = spacingOf o' this ->
  canvas (writeText t o s this) = canvas (writeText t o' s this)
  /\ line (writeText t o s this) = line (writeText t o' s this)
  /\ List.map position (texts (writeText t o s this))
     = List.map position (texts (writeText t o' s this)).
Proof.
  intros Hsame Hsp.
  pose proof (capped_sameDefaults o o' this Hsame) as Hcap.
  pose proof (measuring_sameDefaults o o' s this Hsame) as Hm.
  destruct Hsame as (Hx & Hy & _).
  destruct (capped o this) eqn:Hc; symmetry in Hcap.
  - rewrite !writeText_capped by assumption. repeat split.
  - destruct (strokeActive s) eqn:Hact.
    + rewrite !writeText_stroke by assumption. cbn [canvas line texts].
      rewrite !List.map_app. cbn [List.map position text xSpace ySpace].
      rewrite Hm, Hx, Hy, Hsp. repeat split.
    + rewrite !writeText_fill by assumption. cbn [canvas line texts].
      rewrite !List.map_app. cbn [List.map position text xSpace ySpace].
      rewrite Hm, Hx, Hy, Hsp. repeat split.
Qed.

End WriteTextMore.

(** X1.  Without a truthy stroke option, and when [maxLines] does not stop
    the write, [writeText] places the line at
    x = offsetX + (0 if the context's [textAlign] is ['center'], else the
    left bearing) and y = cursor + ascent + spacing + offsetY, records it,
    calls [fillText] there and nothing else that draws, restores the
    context, and advances the cursor by ascent + em descent + spacing. *)
Theorem fill_layout `{Surface}
    (t : string) (o : WriteOptions) (s : StrokeOptions) (this : CanvasWriter) :
  strokeActive s = false ->
  capped o this = false ->
  let h := measuring o s this in
  let m := measureText h t in
  let x := JS.or_num (o_x o) 5
           + (if String.eqb (textAlign h) "center" then 0 else actualBoundingBoxLeft m) in
  let y := line this + actualBoundingBoxAscent m + spacingOf o this
           + JS.or_num (o_y o) 5 in
  let this' := writeText t o s this in
  ctx (canvas this') = h ++ [FillText t x y; Restore]
  /\ texts this' = texts this ++ [{| text := t; xSpace := x; ySpace := y;
                                     options := o; strokeOptions := s |}]
  /\ line this' = line this + (actualBoundingBoxAscent m + emHeightDescent m
                               + spacingOf o this).
Proof.
  intros Hact Hcap h m x y this'.
  subst this'. rewrite writeText_fill by assumption. fold h. fold m.
  assert (Hx : (if String.eqb (textAlign h) "center" then 0
                else actualBoundingBoxLeft m) + JS.or_num (o_x o) 5 = x)
    by (subst x; lia).
  rewrite Hx. fold y. repeat split.
Qed.

Lemma fill_layout_witness :
  let this := new FixedPitch.blank in
  let this' := @writeText FixedPitch.surface "ab" noOptions noStroke this in
  ctx (canvas this') = measuring noOptions noStroke this ++ [FillText "ab" 6 17; Restore]
  /\ texts this' = texts this ++ [{| text := "ab"; xSpace := 6; ySpace := 17;
                                     options := noOptions; strokeOptions := noStroke |}]
  /\ line this' = 16.
Proof.
  intros this.
  apply (@fill_layout FixedPitch.surface "ab" noOptions noStroke this); reflexivity.
Defined.

(** X2.  On a writer whose cursor is at zero the [spacing] option has no
    effect: two option values that differ in nothing else give the same
    context calls, the same cursor and the same recorded positions. *)
Theorem first_line_ignores_spacing `{Surface}
    (t : string) (o o' : WriteOptions) (s : StrokeOptions) (this : CanvasWriter) :
  line this = 0 ->
  sameDefaults o o' ->
  canvas (writeText t o s this) = canvas (writeText t o' s this)
  /\ line (writeText t o s this) = line (writeText t o' s this)
  /\ List.map position (texts (writeText t o s this))
     = List.map position (texts (writeText t o' s this)).
Proof.
  intros Hline Hsame. apply writeText_same_layout; [exact Hsame|].
  unfold spacingOf. now rewrite Hline.
Qed.

Lemma first_line_ignores_spacing_witness :
  let this := new FixedPitch.blank in
  canvas (@writeText FixedPitch.surface "a" (withSpacing 40) noStroke this)
  = canvas (@writeText FixedPitch.surface "a" noOptions noStroke this)
  /\ line (@writeText FixedPitch.surface "a" (withSpacing 40) noStroke this)
     = line (@writeText FixedPitch.surface "a" noOptions noStroke this)
  /\ List.map position (texts (@writeText FixedPitch.surface "a" (withSpacing 40) noStroke this))
     = List.map position (texts (@writeText FixedPitch.surface "a" noOptions noStroke this)).
Proof.
  intros this.
  apply (@first_line_ignores_spacing FixedPitch.surface "a" (withSpacing 40) noOptions
           noStroke this).
  - reflexivity.
  - repeat split.
Defined.

(** X3.  An option given as [0] or as the empty string is taken as
    missing: whenever [||] gives two option values the same offsets, font,
    style, alignment, cap, shadow and spacing, [writeText] makes the same
    context calls, moves the cursor alike and records the same positions.
    In particular an offset of 0 cannot be asked for: it becomes 5. *)
Theorem falsy_options_are_defaults `{Surface}
    (t : string) (o o' : WriteOptions) (s : StrokeOptions) (this : CanvasWriter) :
  sameDefaults o o' ->
  JS.or_num (o_spacing o) 0 = JS.or_num (o_spacing o') 0 ->
  canvas (writeText t o s this) = canvas (writeText t o' s this)
  /\ line (writeText t o s this) = line (writeText t o' s this)
  /\ List.map position (texts (writeText t o s this))
     = List.map position (texts (writeText t o' s this)).
Proof.
  intros Hsame Hsp. apply writeText_same_layout; [exact Hsame|].
  unfold spacingOf. now rewrite Hsp.
Qed.

Lemma falsy_options_are_defaults_witness :
  let this := @writeText FixedPitch.surface "a" noOptions noStroke (new FixedPitch.blank) in
  canvas (@writeText FixedPitch.surface "b" falsyOptions noStroke this)
  = canvas (@writeText FixedPitch.surface "b" noOptions noStroke this)
  /\ line (@writeText FixedPitch.surface "b" falsyOptions noStroke this)
     = line (@writeText FixedPitch.surface "b" noOptions noStroke this)
  /\ List.map position (texts (@writeText FixedPitch.surface "b" falsyOptions noStroke this))
     = List.map position (texts (@writeText FixedPitch.surface "b" noOptions noStroke this)).
Proof.
  intros this.
  apply (@falsy_options_are_defaults FixedPitch.surface "b" falsyOptions noOptions
           noStroke this).
  - repeat split.
  - reflexivity.
Defined.

(** X4.  [writeText] calls [save] first and [restore] only at the end of
    the branch without stroke: a write stopped by [maxLines] and a write
    with a stroke each leave one saved state on the context's stack. *)
Theorem writeText_save_depth `{Surface}
    (t : string) (o : WriteOptions) (s : StrokeOptions) (this : CanvasWriter) :
  saveDepth (ctx (canvas (writeText t o s this)))
  = saveDepth (ctx (canvas this))
    + (if capped o this || strokeActive s then 1 else 0).
Proof.
  destruct (capped o this) eqn:Hcap.
  - rewrite writeText_capped by exact Hcap. cbn [call canvas ctx orb].
    rewrite saveDepth_app. reflexivity.
  - destruct (strokeActive s) eqn:Hact; cbn [orb].
    + rewrite writeText_stroke by assumption. cbn [canvas ctx].
      rewrite saveDepth_app, measuring_depth. cbn [saveDepth]. lia.
    + rewrite writeText_fill by assumption. cbn [canvas ctx].
      rewrite saveDepth_app, measuring_depth. cbn [saveDepth]. lia.
Qed.

(** X5.  [lastWrite] is [undefined] on a new writer; after [writeText] it
    is the record just appended, or, when [maxLines] stopped the write,
    what it was before. *)
Theorem lastWrite_after_writeText `{Surface}
    (c : Canvas) (t : string) (o : WriteOptions) (s : StrokeOptions)
    (this : CanvasWriter) :
  lastWrite (new c) = None
  /\ lastWrite (writeText t o s this)
     = if capped o this then lastWrite this else Some (placed t o s this).
Proof.
  split; [reflexivity|].
  destruct (capped o this) eqn:Hcap.
  - now rewrite writeText_capped.
  - unfold lastWrite. rewrite writeText_appends by exact Hcap.
    unfold JS.arr_slice, JS.relIndex. cbn [Z.ltb Z.compare].
    rewrite length_app. cbn [List.length].
    rewrite Z.max_l by lia.
    replace (Z.to_nat (Z.of_nat (List.length (texts this) + 1) + -1))
      with (List.length (texts this)) by lia.
    rewrite drop_app_length.
    replace (Z.to_nat (Z.of_nat (List.length (texts this) + 1)
                       - (Z.of_nat (List.length (texts this) + 1) + -1)))
      with 1%nat by lia.
    reflexivity.
Qed.

(** ** [writeLines] *)

Section WriteLinesMore.
Context {surface : Surface}.

Lemma noCap_not_capped (o : WriteOptions) (this : CanvasWriter) :
  noCap o -> capped o this = false.
Proof.
  intros Hno. unfold capped. apply andb_false_iff. right. apply Z.ltb_ge. exact Hno.
Qed.

Lemma lineCount_writeText (t : string) (o : WriteOptions) (s : StrokeOptions)
                          (this : CanvasWriter) :
  lineCount (writeText t o s this)
  = if capped o this then lineCount this else lineCount this + 1.
Proof.
  destruct (capped o this) eqn:Hcap.
  - now rewrite writeText_capped.
  - unfold lineCount. rewrite writeText_appends by exact Hcap.
    rewrite length_app. cbn [List.length]. lia.
Qed.

Lemma writeTexts_uncapped (o : WriteOptions) (s : StrokeOptions) (l : list string) :
  noCap o ->
  forall this,
    List.map text (texts (fold_left (fun this t => writeText t o s this) l this))
    = List.map text (texts this) ++ l.
Proof.
  intros Hno. induction l as [|t l IH]; intros this; cbn [fold_left].
  - now rewrite app_nil_r.
  - rewrite IH, writeText_appends by (apply noCap_not_capped; exact Hno).
    rewrite List.map_app, <- app_assoc. reflexivity.
Qed.

Lemma writeTexts_capped (K : Z) (o : WriteOptions) (s : StrokeOptions) (l : list string) :
  0 < K -> o_maxLines o = Some K ->
  forall this,
    List.map text (texts (fold_left (fun this t => writeText t o s this) l this))
    = List.map text (texts this) ++ firstn (Z.to_nat (K - lineCount this)) l.
Proof.
  intros HK Hmax. induction l as [|t l IH]; intros this; cbn [fold_left].
  - now rewrite firstn_nil, app_nil_r.
  - rewrite IH, lineCount_writeText.
    assert (Hcap : capped o this = (K <=? lineCount this)).
    { unfold capped. rewrite Hmax. cbn [JS.or_num].
      destruct (Z.eqb_spec K 0); [lia|].
      destruct (Z.ltb_spec 0 K); [apply andb_true_r | lia]. }
    rewrite Hcap. destruct (Z.leb_spec K (lineCount this)) as [Hfull|Hroom].
    + rewrite writeText_capped by exact Hcap.
      cbn [call texts].
      replace (Z.to_nat (K - lineCount this)) with 0%nat by lia. reflexivity.
    + rewrite writeText_appends by exact Hcap.
      rewrite List.map_app, <- app_assoc. cbn [List.map text placed app].
      replace (Z.to_nat (K - lineCount this))
        with (S (Z.to_nat (K - (lineCount this + 1)))) by lia.
      reflexivity.
Qed.

Lemma join_split_sep (sep : ascii) (s : string) :
  JS.join (String sep EmptyString) (JS.split sep s) = s.
Proof.
  induction s as [|c s IH]; [reflexivity|].
  cbn [JS.split]. destruct (Ascii.eqb_spec c sep) as [->|Hne].
  - unfold JS.join in *. cbn [String.concat].
    destruct (JS.split sep s) as [|w ws] eqn:E; [now apply split_not_nil in E|].
    rewrite IH. reflexivity.
  - unfold JS.join in *. destruct (JS.split sep s) as [|w ws] eqn:E;
      [now apply split_not_nil in E|].
    rewrite <- IH. destruct ws; reflexivity.
Qed.

End WriteLinesMore.

(** X6.  With a [maxLines] that is missing, zero or negative, [writeLines]
    appends one record per line, in the order of the lines. *)
Theorem writeLines_appends_every_line `{Surface}
    (lines : Lines) (o : WriteOptions) (s : StrokeOptions) (this : CanvasWriter) :
  noCap o ->
  List.map text (texts (writeLines lines o s this))
  = List.map text (texts this) ++ toArray lines.
Proof. intros Hno. unfold writeLines. now apply writeTexts_uncapped. Qed.

Lemma writeLines_appends_every_line_witness :
  let this := @writeText FixedPitch.surface "top" noOptions noStroke
                         (new FixedPitch.blank) in
  List.map text (texts (@writeLines FixedPitch.surface (OfArray ["a"; ""; "b"])
                                    (withMaxLines (-3)) noStroke this))
  = List.map text (texts this) ++ ["a"; ""; "b"].
Proof.
  intros this.
  apply (@writeLines_appends_every_line FixedPitch.surface (OfArray ["a"; ""; "b"])
           (withMaxLines (-3)) noStroke this).
  vm_compute. discriminate.
Defined.

(** X7.  With a positive [maxLines] of [K], [writeLines] writes the first
    [K - lineCount] lines it is given (none when the log already holds [K]
    lines or more) and passes over the rest; the log never grows beyond
    the larger of [K] and its length before the call. *)
Theorem writeLines_keeps_first_lines_under_cap `{Surface}
    (K : Z) (lines : Lines) (o : WriteOptions) (s : StrokeOptions)
    (this : CanvasWriter) :
  0 < K ->
  o_maxLines o = Some K ->
  List.map text (texts (writeLines lines o s this))
  = List.map text (texts this) ++ firstn (Z.to_nat (K - lineCount this)) (toArray lines)
  /\ lineCount (writeLines lines o s this) <= Z.max (lineCount this) K.
Proof.
  intros HK Hmax.
  pose proof (writeTexts_capped K o s (toArray lines) HK Hmax this) as Htexts.
  split; [exact Htexts|].
  apply (f_equal (@List.length string)) in Htexts.
  rewrite length_app, !length_map, length_firstn in Htexts.
  unfold lineCount, writeLines in *. lia.
Qed.

Lemma writeLines_keeps_first_lines_under_cap_witness :
  let this := @writeText FixedPitch.surface "top" noOptions noStroke
                         (new FixedPitch.blank) in
  let lines := OfString (String.concat (String nl EmptyString) ["a"; "b"; "c"; "d"]) in
  List.map text (texts (@writeLines FixedPitch.surface lines (withMaxLines 3) noStroke this))
  = List.map text (texts this) ++ firstn (Z.to_nat (3 - lineCount this)) (toArray lines)
  /\ lineCount (@writeLines FixedPitch.surface lines (withMaxLines 3) noStroke this)
     <= Z.max (lineCount this) 3.
Proof.
  intros this lines.
  apply (@writeLines_keeps_first_lines_under_cap FixedPitch.surface 3 lines
           (withMaxLines 3) noStroke this).
  - lia.
  - reflexivity.
Defined.

(** X8.  Round trip: on a writer with an empty log and no cap, writing a
    string with [writeLines] and reading the writer back with [toString]
    gives the string back, line breaks included. *)
Theorem toString_after_writeLines `{Surface}
    (lines : string) (o : WriteOptions) (s : StrokeOptions) (this : CanvasWriter) :
  noCap o ->
  texts this = [] ->
  toString (writeLines (OfString lines) o s this) = lines.
Proof.
  intros Hno Hempty. unfold toString.
  change (fun t : LineRecord => text t) with text.
  unfold writeLines. rewrite writeTexts_uncapped by exact Hno.
  rewrite Hempty. cbn [List.map app toArray]. apply join_split_sep.
Qed.

Lemma toString_after_writeLines_witness :
  let lines := String.concat (String nl EmptyString) ["Hello"; ""; "world"] in
  toString (@writeLines FixedPitch.surface (OfString lines) noOptions noStroke
                        (new FixedPitch.blank))
  = lines.
Proof.
  intros lines.
  apply (@toString_after_writeLines FixedPitch.surface lines noOptions noStroke
           (new FixedPitch.blank)).
  - vm_compute. discriminate.
  - reflexivity.
Defined.

(** ** The hard wrap *)

Section HardWrapMore.
Variable measureWidth : string -> Z.
Variable maxWidth : Z.

Local Abbreviation wide := (tooWide measureWidth maxWidth).
Local Abbreviation fine := (fitsOrChar measureWidth maxWidth).

Lemma str_drop_nil (n : nat) : JS.str_drop n "" = "".
Proof. destruct n; reflexivity. Qed.

Lemma str_drop_drop (a b : nat) (s : string) :
  JS.str_drop a (JS.str_drop b s) = JS.str_drop (b + a) s.
Proof.
  revert s; induction b as [|b IH]; intros s.
  - now rewrite str_drop_zero.
  - destruct s as [|c s]; [now rewrite !str_drop_nil|]. cbn [JS.str_drop Nat.add]. apply IH.
Qed.

Lemma not_wide_fine (s : string) : wide s = false -> fine s.
Proof.
  unfold tooWide, fitsOrChar. intros Hs. apply andb_false_iff in Hs as [Hs|Hs].
  - left. now apply Z.ltb_ge.
  - right. apply Z.ltb_ge in Hs. lia.
Qed.

(** A text wider than [maxWidth] on which the loop condition fails has at
    most one character. *)
Lemma wide_char (text : string) :
  maxWidth < measureWidth text -> wide text = false -> (String.length text <= 1)%nat.
Proof.
  intros Hw Hs. unfold tooWide in Hs. apply andb_false_iff in Hs as [Hs|Hs].
  - apply Z.ltb_ge in Hs. lia.
  - apply Z.ltb_ge in Hs. lia.
Qed.

(** One step of [reduceToFit] on a text that is too wide and longer than
    one character. *)
Lemma reduceToFit_step (fuel : nat) (text : string) (results : list string) :
  maxWidth < measureWidth text -> wide text = true ->
  exists k : nat,
    (1 <= k)%nat /\ (k < String.length text)%nat
    /\ wide (JS.str_take k text) = false
    /\ Wrapped.reduceToFit measureWidth maxWidth (S fuel) text results
       = Wrapped.reduceToFit measureWidth maxWidth fuel (JS.str_drop k text)
                             (results ++ [JS.str_take k text]).
Proof.
  intros Hw Htw. cbn [Wrapped.reduceToFit].
  apply Z.ltb_lt in Hw. rewrite Hw.
  destruct (shrink_whole measureWidth maxWidth text) as (k & Heq & _ & Hpos & Hlt & Hstop).
  exists k. rewrite Heq, slice_suffix by (apply Hlt, Htw).
  pose proof (Hlt Htw). repeat split; auto. apply Hpos. lia.
Qed.

Lemma reduceToFit_sound (fuel : nat) :
  forall (text : string) (results out : list string),
    Wrapped.reduceToFit measureWidth maxWidth fuel text results = Some out ->
    String.concat "" out = String.concat "" results +:+ text
    /\ (Forall fine results -> Forall fine out).
Proof.
  induction fuel as [|fuel IH]; intros text results out Hrun; [discriminate|].
  destruct (Z.ltb_spec maxWidth (measureWidth text)) as [Hw|Hfit].
  - destruct (wide text) eqn:Htw.
    + destruct (reduceToFit_step fuel text results Hw Htw)
        as (k & _ & _ & Hstop & Heq).
      rewrite Heq in Hrun. apply IH in Hrun as [Hcat Hfine].
      split.
      * now rewrite Hcat, concat_snoc, str_app_assoc, str_take_drop.
      * intros Hres. apply Hfine. apply Forall_app. split; [exact Hres|].
        constructor; [now apply not_wide_fine | constructor].
    + rewrite reduceToFit_wide_char in Hrun; [discriminate | | exact Hw].
      now apply wide_char.
  - cbn [Wrapped.reduceToFit] in Hrun.
    apply Z.ltb_ge in Hfit. rewrite Hfit in Hrun. injection Hrun as <-.
    split; [apply concat_snoc|].
    intros Hres. apply Forall_app. split; [exact Hres|].
    constructor; [left; now apply Z.ltb_ge | constructor].
Qed.

Lemma reduceToFit_returns (fuel : nat) :
  forall (text : string) (results : list string),
    (String.length text < fuel)%nat ->
    measureWidth (JS.str_drop (String.length text - 1) text) <= maxWidth ->
    exists out, Wrapped.reduceToFit measureWidth maxWidth fuel text results = Some out.
Proof.
  induction fuel as [|fuel IH]; intros text results Hfuel Hlast; [lia|].
  destruct (Z.ltb_spec maxWidth (measureWidth text)) as [Hw|Hfit].
  - destruct (wide text) eqn:Htw.
    + destruct (reduceToFit_step fuel text results Hw Htw)
        as (k & Hk1 & Hk2 & _ & Heq).
      rewrite Heq. apply IH.
      * rewrite str_drop_length. lia.
      * rewrite str_drop_length, str_drop_drop.
        replace (k + (String.length text - k - 1))%nat
          with (String.length text - 1)%nat by lia.
        exact Hlast.
    + pose proof (wide_char text Hw Htw) as Hlen.
      replace (String.length text - 1)%nat with 0%nat in Hlast by lia.
      rewrite str_drop_zero in Hlast. lia.
  - cbn [Wrapped.reduceToFit]. apply Z.ltb_ge in Hfit. rewrite Hfit. eauto.
Qed.

End HardWrapMore.

(** X9.  When the hard-wrap split returns, its lines put end to end are
    the text: no character is dropped, added or moved. *)
Theorem hard_wrap_lines_concat_to_text
    (measureWidth : string -> Z) (maxWidth : Z) (fuel : nat) (text : string)
    (out : list string) :
  Wrapped.lines measureWidth maxWidth fuel text = Some out ->
  String.concat "" out = text.
Proof.
  intros Hrun. apply reduceToFit_sound in Hrun as [Hcat _]. exact Hcat.
Qed.

Lemma hard_wrap_lines_concat_to_text_witness :
  String.concat "" ["abc"; "def"; "gh"] = "abcdefgh".
Proof.
  apply (hard_wrap_lines_concat_to_text fixedWidth 35 20 "abcdefgh" ["abc"; "def"; "gh"]).
  reflexivity.
Defined.

(** X10.  When the hard-wrap split returns, every line it emitted
    measures at most [maxWidth], except that a line of a single character
    may be wider. *)
Theorem hard_wrap_lines_fit
    (measureWidth : string -> Z) (maxWidth : Z) (fuel : nat) (text : string)
    (out : list string) :
  Wrapped.lines measureWidth maxWidth fuel text = Some out ->
  Forall (fitsOrChar measureWidth maxWidth) out.
Proof.
  intros Hrun. apply reduceToFit_sound in Hrun as [_ Hfine]. apply Hfine. constructor.
Qed.

Lemma hard_wrap_lines_fit_witness :
  Forall (fitsOrChar fixedWidth 35) ["abc"; "def"; "gh"].
Proof.
  apply (hard_wrap_lines_fit fixedWidth 35 20 "abcdefgh" ["abc"; "def"; "gh"]).
  reflexivity.
Defined.

(** X11.  The hard-wrap split returns whenever the last character of the
    text, measured alone, is not wider than [maxWidth] (for the empty
    text: whenever the empty text is not): a depth of one more than the
    length of the text is enough. *)
Theorem hard_wrap_returns_when_last_char_fits
    (measureWidth : string -> Z) (maxWidth : Z) (fuel : nat) (text : string) :
  (String.length text < fuel)%nat ->
  measureWidth (JS.str_drop (String.length text - 1) text) <= maxWidth ->
  exists out : list string, Wrapped.lines measureWidth maxWidth fuel text = Some out.
Proof. intros Hfuel Hlast. now apply reduceToFit_returns. Qed.

Lemma hard_wrap_returns_when_last_char_fits_witness :
  exists out : list string, Wrapped.lines fixedWidth 15 4 "abc" = Some out.
Proof.
  apply (hard_wrap_returns_when_last_char_fits fixedWidth 15 4 "abc").
  - vm_compute. lia.
  - vm_compute. discriminate.
Defined.

(** ** The word wrap *)

Section WordWrapMore.
Variable measureWidth : string -> Z.
Variable maxWidth : Z.

Local Abbreviation wide := (tooWide measureWidth maxWidth).
Local Abbreviation fine := (fitsOrChar measureWidth maxWidth).

Lemma ink_app (a b : string) : ink (a +:+ b) = ink a +:+ ink b.
Proof.
  induction a as [|c a IH]; [reflexivity|].
  rewrite str_app_cons. cbn [ink]. destruct (Ascii.eqb c sp); [exact IH|].
  now rewrite str_app_cons, IH.
Qed.

Lemma ink_join_app (a b : list string) :
  ink (JS.join " " (a ++ b)) = ink (JS.join " " a) +:+ ink (JS.join " " b).
Proof.
  destruct a as [|x a]; [reflexivity|].
  destruct b as [|y b].
  - rewrite app_nil_r. change (JS.join " " []) with "". cbn [ink].
    now rewrite str_app_nil_r.
  - rewrite join_app by discriminate. now rewrite !ink_app.
Qed.

Lemma popWords_loopEnd (n : nat) :
  forall section remainder sec rem,
    WordWrapped.popWords measureWidth maxWidth n section remainder
    = Some (WordWrapped.LoopEnd sec rem) ->
    wide (JS.join " " sec) = false.
Proof.
  induction n as [|n IH]; intros section remainder sec rem Hrun;
    rewrite popWords_eq in Hrun;
    destruct (wide (JS.join " " section)) eqn:Hw;
    try (injection Hrun as <- <-; exact Hw);
    destruct (List.length section =? 1)%nat; try discriminate.
  eapply IH. exact Hrun.
Qed.

Lemma reduceToFit_word_fit (w : string) (results : list string) :
  wide w = true ->
  exists k : nat,
    WordWrapped.reduceToFit measureWidth maxWidth w results
    = Some (JS.str_drop k w, results ++ [JS.str_take k w])
    /\ wide (JS.str_take k w) = false.
Proof.
  intros Hw. unfold WordWrapped.reduceToFit.
  pose proof Hw as Hw'. unfold tooWide in Hw'.
  apply andb_true_iff in Hw' as [Hwidth _]. rewrite Hwidth.
  rewrite shrink_same.
  destruct (shrink_whole measureWidth maxWidth w) as (k & Heq & _ & _ & Hlt & Hstop).
  rewrite Heq. exists k. rewrite slice_suffix by (apply Hlt, Hw).
  split; [reflexivity | exact Hstop].
Qed.

Lemma splitToFit_sound (fuel : nat) :
  forall (text : string) (results out : list string),
    WordWrapped.splitToFit measureWidth maxWidth fuel text results = Some out ->
    ink (String.concat "" out) = ink (String.concat "" results) +:+ ink text
    /\ (Forall fine results -> Forall fine out).
Proof.
  induction fuel as [|fuel IH]; intros text results out Hrun; [discriminate|].
  cbn [WordWrapped.splitToFit] in Hrun.
  destruct (String.eqb_spec text "") as [->|Hne].
  { injection Hrun as <-. cbn [ink]. now rewrite str_app_nil_r. }
  rewrite join_split in Hrun.
  destruct (Z.ltb_spec maxWidth (measureWidth text)) as [Hwide|Hfit].
  - destruct (popWords_spec measureWidth maxWidth
                (List.length (JS.split sp text)) (JS.split sp text) [])
      as [(w & rem & Heq & Hall & Hw) | (sec & rem & Heq & Hsne & Hall)];
      [apply split_not_nil | lia | |]; rewrite Heq in Hrun; rewrite app_nil_r in Hall.
    + change (JS.join " " [w]) with w in Hrun.
      destruct (reduceToFit_word_fit w results Hw) as (k & Hred & Hstop).
      rewrite Hred in Hrun. apply IH in Hrun as [Hcat Hfine].
      assert (Hink : ink text = ink (JS.str_take k w) +:+ ink (JS.str_drop k w)
                                +:+ ink (JS.join " " rem)).
      { rewrite <- (join_split text), <- Hall.
        change (w :: rem) with ([w] ++ rem). rewrite ink_join_app.
        change (JS.join " " [w]) with w.
        rewrite <- (str_take_drop k w) at 1. now rewrite ink_app, str_app_assoc. }
      split.
      * rewrite Hcat, Hink, concat_snoc, !ink_app. cbn [ink Ascii.eqb].
        change (Ascii.eqb " " sp) with true. cbn match.
        now rewrite !str_app_assoc.
      * intros Hres. apply Hfine. apply Forall_app. split; [exact Hres|].
        constructor; [now apply not_wide_fine | constructor].
    + pose proof (popWords_loopEnd _ _ _ _ _ Heq) as Hstop.
      apply IH in Hrun as [Hcat Hfine].
      split.
      * rewrite Hcat, concat_snoc, ink_app, str_app_assoc, <- ink_join_app.
        now rewrite Hall, join_split.
      * intros Hres. apply Hfine. apply Forall_app. split; [exact Hres|].
        constructor; [now apply not_wide_fine | constructor].
  - injection Hrun as <-.
    split; [now rewrite concat_snoc, ink_app|].
    intros Hres. apply Forall_app. split; [exact Hres|].
    constructor; [left; exact Hfit | constructor].
Qed.

End WordWrapMore.

(** X12.  When the word-wrap split returns, its lines put end to end hold
    the characters of the text other than spaces, all of them, once each
    and in the same order: the split only drops or adds spaces. *)
Theorem word_wrap_keeps_the_ink
    (measureWidth : string -> Z) (maxWidth : Z) (fuel : nat) (text : string)
    (out : list string) :
  WordWrapped.lines measureWidth maxWidth fuel text = Some out ->
  ink (String.concat "" out) = ink text.
Proof.
  intros Hrun. apply splitToFit_sound in Hrun as [Hcat _]. exact Hcat.
Qed.

Lemma word_wrap_keeps_the_ink_witness :
  ink (String.concat "" ["hello"; "wor ld"; "abcdef"; "ghijkl"; "mn x"])
  = ink "hello wor ld abcdefghijklmn x".
Proof.
  apply (word_wrap_keeps_the_ink fixedWidth 60 20 "hello wor ld abcdefghijklmn x"
           ["hello"; "wor ld"; "abcdef"; "ghijkl"; "mn x"]).
  reflexivity.
Defined.

(** X13.  When the word-wrap split returns, every line it emitted
    measures at most [maxWidth], except that a line of a single character
    may be wider. *)
Theorem word_wrap_lines_fit
    (measureWidth : string -> Z) (maxWidth : Z) (fuel : nat) (text : string)
    (out : list string) :
  WordWrapped.lines measureWidth maxWidth fuel text = Some out ->
  Forall (fitsOrChar measureWidth maxWidth) out.
Proof.
  intros Hrun. apply splitToFit_sound in Hrun as [_ Hfine]. apply Hfine. constructor.
Qed.

Lemma word_wrap_lines_fit_witness :
  Forall (fitsOrChar fixedWidth 60) ["hello"; "wor ld"; "abcdef"; "ghijkl"; "mn x"].
Proof.
  apply (word_wrap_lines_fit fixedWidth 60 20 "hello wor ld abcdefghijklmn x"
           ["hello"; "wor ld"; "abcdef"; "ghijkl"; "mn x"]).
  reflexivity.
Defined.

(** ** The multi-line wrappers *)

Section LinesMore.
Context {surface : Surface}.






End LinesMore.






(** ** The cursor *)

Section CursorMore.
Context {surface : Surface}.

Lemma writeText_keeps_canvas_size (t : string) (o : WriteOptions) (s : StrokeOptions)
                                  (this : CanvasWriter) :
  canvasHeight (canvas (writeText t o s this)) = canvasHeight (canvas this)
  /\ canvasWidth (canvas (writeText t o s this)) = canvasWidth (canvas this).
Proof.
  destruct (capped o this) eqn:Hcap.
  - now rewrite writeText_capped.
  - destruct (strokeActive s) eqn:Hact.
    + now rewrite writeText_stroke.
    + now rewrite writeText_fill.
Qed.

Lemma writeText_cursor_monotone (t : string) (o : WriteOptions) (s : StrokeOptions)
                                (this : CanvasWriter) :
  (forall h t, 0 <= actualBoundingBoxAscent (measureText h t)
                    + emHeightDescent (measureText h t)) ->
  (forall h, 0 <= lineWidth h) ->
  spacingNonNeg o s ->
  line this <= line (writeText t o s this).
Proof.
  intros Hheight Hwidth Hsp.
  assert (Hspacing : 0 <= spacingOf o this).
  { unfold spacingOf. destruct (line this =? 0); [lia | exact Hsp]. }
  destruct (capped o this) eqn:Hcap.
  - rewrite writeText_capped by exact Hcap. cbn. lia.
  - destruct (strokeActive s) eqn:Hact.
    + rewrite writeText_stroke by assumption. cbn [line].
      specialize (Hheight (measuring o s this) t).
      match goal with |- context [lineWidth ?h] => specialize (Hwidth h) end.
      lia.
    + rewrite writeText_fill by assumption. cbn [line].
      specialize (Hheight (measuring o s this) t). lia.
Qed.

Lemma writeTexts_cursor (metrics : string -> TextMetrics) (o : WriteOptions)
                        (s : StrokeOptions) (l : list string) :
  (forall h t, measureText h t = metrics t) ->
  noCap o -> strokeActive s = false -> JS.or_num (o_spacing o) 0 = 0 ->
  forall this,
    line (fold_left (fun this t => writeText t o s this) l this)
    = line this + totalHeight metrics l.
Proof.
  intros Hm Hno Hact Hsp. induction l as [|t l IH]; intros this;
    cbn [fold_left totalHeight]; [lia|].
  rewrite IH, writeText_fill by (assumption || now apply noCap_not_capped).
  cbn [line]. rewrite Hm.
  assert (Hzero : spacingOf o this = 0).
  { unfold spacingOf. rewrite Hsp. now destruct (line this =? 0). }
  rewrite Hzero. lia.
Qed.

End CursorMore.

(** X16.  With no cap, no stroke and no spacing, on a surface whose
    metrics of a text do not depend on the calls made before, [writeLines]
    advances the cursor by the sum of the heights (ascent plus em descent)
    of the lines. *)
Theorem cursor_advances_by_line_heights `{Surface}
    (metrics : string -> TextMetrics) (lines : Lines) (o : WriteOptions)
    (s : StrokeOptions) (this : CanvasWriter) :
  (forall h t, measureText h t = metrics t) ->
  noCap o ->
  strokeActive s = false ->
  JS.or_num (o_spacing o) 0 = 0 ->
  line (writeLines lines o s this) = line this + totalHeight metrics (toArray lines).
Proof. intros. unfold writeLines. now apply writeTexts_cursor. Qed.

Lemma cursor_advances_by_line_heights_witness :
  line (@writeLines FixedPitch.surface (OfArray ["a"; "bc"; ""]) noOptions noStroke
                    (new FixedPitch.blank))
  = line (new FixedPitch.blank) + totalHeight FixedPitch.metrics ["a"; "bc"; ""].
Proof.
  apply (@cursor_advances_by_line_heights FixedPitch.surface FixedPitch.metrics
           (OfArray ["a"; "bc"; ""]) noOptions noStroke (new FixedPitch.blank)).
  - reflexivity.
  - vm_compute. discriminate.
  - reflexivity.
  - reflexivity.
Defined.

(** X17.  Once [isFitting()] is false it stays false: under the conditions
    that keep the cursor from decreasing (non-negative spacings, line
    heights and line widths), no sequence of methods brings the cursor back
    above the bottom of the canvas, whose height no method changes. *)
Theorem isFitting_stays_false `{Surface}
    (fuel : nat) (ops : list Op) (this final : CanvasWriter) :
  (forall h t, 0 <= actualBoundingBoxAscent (measureText h t)
                    + emHeightDescent (measureText h t)) ->
  (forall h, 0 <= lineWidth h) ->
  Forall (okOp spacingNonNeg) ops ->
  okLog spacingNonNeg this ->
  run fuel ops this = Some final ->
  isFitting this = false ->
  isFitting final = false.
Proof.
  intros Hheight Hwidth Hops Hlog Hrun Hfull.
  destruct (run_preserve
              (fun a b => line a <= line b
                          /\ canvasHeight (canvas a) = canvasHeight (canvas b))
              spacingNonNeg) with fuel ops this final as [[Hline Hsize] _];
    try assumption.
  - intros; split; [lia | reflexivity].
  - intros a b d [H1 H2] [H3 H4]. split; [lia | congruence].
  - intros; split; [cbn; lia | reflexivity].
  - intros t o s w Hsp. split.
    + now apply writeText_cursor_monotone.
    + symmetry. apply writeText_keeps_canvas_size.
  - unfold isFitting in *. apply Z.ltb_ge in Hfull. apply Z.ltb_ge. lia.
Qed.

Lemma isFitting_stays_false_witness :
  let tall := {| o_x := None; o_y := None; o_spacing := Some 300; o_font := None;
                 o_style := None; o_align := None; o_maxLines := None;
                 o_shadowColor := None; o_shadowX := None; o_shadowY := None;
                 o_shadowBlur := None |} in
  let this := @writeLines FixedPitch.surface (OfArray ["a"; "b"]) tall noStroke
                          (new FixedPitch.blank) in
  let final := @writeText FixedPitch.surface "c" noOptions noStroke this in
  isFitting final = false.
Proof.
  intros tall this final.
  apply (@isFitting_stays_false FixedPitch.surface 1 [WriteText "c" noOptions noStroke]
           this final).
  - intros h t. cbn. lia.
  - apply fixedPitch_lineWidth_nonneg.
  - repeat constructor. vm_compute. discriminate.
  - vm_compute. repeat constructor; discriminate.
  - vm_compute. reflexivity.
  - vm_compute. reflexivity.
Defined.

(** ** [cloneFrom] *)

Section CloneMore.
Context {surface : Surface}.

Lemma arr_slice_prefix {A : Type} (a : list A) (l : Z) :
  JS.arr_slice a 0 (Some l)
  = firstn (Z.to_nat (JS.relIndex (Z.of_nat (List.length a)) l)) a.
Proof.
  unfold JS.arr_slice. cbv zeta.
  assert (H0 : JS.relIndex (Z.of_nat (List.length a)) 0 = 0)
    by (unfold JS.relIndex; cbn [Z.ltb Z.compare]; lia).
  rewrite H0. cbn [Z.to_nat skipn]. now rewrite Z.sub_0_r.
Qed.

Lemma replay_uncapped (l : list LineRecord) :
  Forall (fun r => noCap (options r)) l ->
  forall this,
    List.map text
      (texts (fold_left (fun this t => writeText (text t) (options t) (strokeOptions t) this)
                        l this))
    = List.map text (texts this) ++ List.map text l.
Proof.
  induction l as [|r l IH]; intros Hl this; cbn [fold_left List.map].
  - now rewrite app_nil_r.
  - inversion Hl as [|? ? Hr Hrest]; subst.
    rewrite IH, writeText_appends by (assumption || now apply noCap_not_capped).
    rewrite List.map_app, <- app_assoc. reflexivity.
Qed.

End CloneMore.

(** X18.  Without a limit, and when no record of the source carries a cap,
    [cloneFrom] appends the texts of the whole log of the source, in order;
    cloned into a new writer, the source reads back the same:
    [toString()] of the clone is [toString()] of the source. *)
Theorem cloneFrom_copies_the_text `{Surface}
    (c : Canvas) (source this : CanvasWriter) :
  Forall (fun r => noCap (options r)) (texts source) ->
  List.map text (texts (cloneFrom source None this))
  = List.map text (texts this) ++ List.map text (texts source)
  /\ toString (cloneFrom source None (new c)) = toString source.
Proof.
  intros Hno.
  assert (Hall : forall w, List.map text (texts (cloneFrom source None w))
                           = List.map text (texts w) ++ List.map text (texts source)).
  { intros w. unfold cloneFrom. rewrite arr_slice_prefix.
    unfold JS.relIndex.
    destruct (Z.ltb_spec (Z.of_nat (List.length (texts source))) 0); [lia|].
    rewrite Z.min_id, Nat2Z.id, firstn_all. now apply replay_uncapped. }
  split; [apply Hall|].
  unfold toString. change (fun t : LineRecord => text t) with text.
  now rewrite Hall.
Qed.

Lemma cloneFrom_copies_the_text_witness :
  let source := @writeLines FixedPitch.surface (OfArray ["one"; "two"; "three"])
                            noOptions noStroke (new FixedPitch.blank) in
  let this := @writeText FixedPitch.surface "top" noOptions noStroke
                         (new FixedPitch.blank) in
  List.map text (texts (@cloneFrom FixedPitch.surface source None this))
  = List.map text (texts this) ++ List.map text (texts source)
  /\ toString (@cloneFrom FixedPitch.surface source None (new FixedPitch.blank))
     = toString source.
Proof.
  intros source this.
  apply (@cloneFrom_copies_the_text FixedPitch.surface FixedPitch.blank source this).
  vm_compute. repeat constructor; discriminate.
Defined.

(** X19.  The limit of [cloneFrom] is an end index of [slice]: a limit at
    or beyond the length of the source's log clones all of it; a negative
    limit [-k] does not clone nothing but leaves out the last [k] records;
    the limit 0 clones nothing and makes no call at all. *)
Theorem cloneFrom_limit_bounds `{Surface}
    (source this : CanvasWriter) (l k : Z) :
  lineCount source <= l ->
  0 < k ->
  cloneFrom source (Some l) this = cloneFrom source None this
  /\ cloneFrom source (Some (- k)) this
     = cloneFrom source (Some (Z.max 0 (lineCount source - k))) this
  /\ cloneFrom source (Some 0) this = this.
Proof.
  intros Hl Hk. unfold lineCount in *. unfold cloneFrom.
  rewrite !arr_slice_prefix. unfold JS.relIndex.
  repeat split.
  - destruct (Z.ltb_spec l 0); [lia|].
    destruct (Z.ltb_spec (Z.of_nat (List.length (texts source))) 0); [lia|].
    do 2 f_equal. lia.
  - destruct (Z.ltb_spec (- k) 0); [|lia].
    destruct (Z.ltb_spec (Z.max 0 (Z.of_nat (List.length (texts source)) - k)) 0); [lia|].
    do 2 f_equal. lia.
  - cbn [Z.ltb Z.compare]. rewrite Z.min_l by lia. reflexivity.
Qed.

Lemma cloneFrom_limit_bounds_witness :
  let source := @writeLines FixedPitch.surface (OfArray ["one"; "two"; "three"])
                            noOptions noStroke (new FixedPitch.blank) in
  let this := new FixedPitch.blank in
  @cloneFrom FixedPitch.surface source (Some 7) this
  = @cloneFrom FixedPitch.surface source None this
  /\ @cloneFrom FixedPitch.surface source (Some (- 1)) this
     = @cloneFrom FixedPitch.surface source (Some (Z.max 0 (lineCount source - 1))) this
  /\ @cloneFrom FixedPitch.surface source (Some 0) this = this.
Proof.
  intros source this.
  apply (@cloneFrom_limit_bounds FixedPitch.surface source this 7 1).
  - vm_compute. discriminate.
  - lia.
Defined.

(** ** The export methods *)

(** X20.  The promise of [saveFile] is fulfilled with the path exactly when
    the canvas was encoded and the file written.  When writing fails it is
    rejected with that error, the [resolve(path)] that follows having no
    effect.  When encoding fails it is never settled: the rejection of
    [this.buffer()] has no handler, so neither [resolve] nor [reject] of
    the promise returned is ever called. *)
Theorem saveFile_outcomes
    (path : string) (toBuffer : Outcome string) (writeFile : option string) :
  saveFile path toBuffer writeFile
  = match toBuffer, writeFile with
    | Failed _, _ => Pending
    | Done _, Some err => Rejected err
    | Done _, None => Fulfilled path
    end.
Proof. destruct toBuffer, writeFile; reflexivity. Qed.
